(** * A rule-driven state machine and its character-level tokenizer

    Shallow embedding of [statemachine.js] (classes [Context],
    [StateMachine], [StateMachineBuilder]), of the action vocabulary of
    [tokenizer.js] and of [streamify] from [util.js].

    Conventions of the embedding.
    - JavaScript [undefined] is [None]; a value that may be [undefined] has
      an [option] type.
    - Input items are JavaScript strings (the characters of the input
      string); [undefined] never occurs as an item, it is the end signal.
    - A [throw] is the completion [Throw e]; the context that was mutated
      before the throw is kept, as the object is in JavaScript.
    - The [states] object of a builder lives in a heap, and the machine
      returned by [build] holds the same location: [build] copies the
      reference, not the table.
    - The [states] object is a plain object: a name that is not one of its
      keys but names a member of [Object.prototype] is found there
      ([object_prototype_member]).  [Object.prototype] is taken as the
      language defines it: its members have no [matchers] and no
      [endActions].  The heap holds the tables only.  When a state was
      opened under the name of such a member, [onEnd] and [else] assign to
      the member and to no table; after [state("__proto__")] the member is
      [Object.prototype] itself, and what an assignment to it changes for
      every other object is outside the embedding
      ([leaves_object_prototype] singles out the calls that cannot lead
      there). *)

From stdpp Require Import base strings list gmap pretty.

Open Scope Z_scope.

(** ** JavaScript values held by the tokenizer's buffer *)

(** [ctx.buffer] is absent until the context initializer writes it, a string
    afterwards, and [NaN] when [undefined + undefined] was computed. *)
Inductive JsVal :=
  | VUndefined
  | VString (s : string)
  | VNaN.

(** [ToString] on those values. *)
Definition js_to_string (v : JsVal) : string :=
  match v with
  | VUndefined => "undefined"
  | VString s => s
  | VNaN => "NaN"
  end.

(** A possibly undefined string seen as a value. *)
Definition js_of_item (i : option string) : JsVal :=
  match i with
  | None => VUndefined
  | Some s => VString s
  end.

(** The binary [+]: concatenation as soon as one operand is a string,
    numeric addition (here always [NaN]) otherwise. *)
Definition js_plus (a b : JsVal) : JsVal :=
  match a, b with
  | VString _, _ | _, VString _ => VString (js_to_string a +:+ js_to_string b)
  | _, _ => VNaN
  end.

(** A property key: [obj[undefined]] reads the key ["undefined"]. *)
Definition js_key (k : option string) : string :=
  match k with
  | None => "undefined"
  | Some s => s
  end.

(** Truthiness of a possibly undefined string: [undefined] and the empty
    string are falsy. *)
Definition js_truthy (k : option string) : bool :=
  match k with
  | None => false
  | Some s => negb (String.eqb s "")
  end.

(** Strict equality [===] on possibly undefined strings. *)
Definition js_strict_eq (a b : option string) : bool :=
  bool_decide (a = b).

(** What a [throw] carries: [new Error(message)], or the [TypeError] the
    engine raises on a property read of [undefined] or a call of a
    non-function (its text is engine-specific and not modelled). *)
Inductive JsError :=
  | Error (message : string)
  | TypeError.

Inductive Completion (A : Type) :=
  | Normal (a : A)
  | Throw (e : JsError).
Arguments Normal {A} a.
Arguments Throw {A} e.

Record Token := mkToken { type : string; value : JsVal }.

(** ** class Context *)

Module Context.

Record t := mk {
  state : option string;
  currentItem : option string;
  currentPosition : Z;
  tokens : list Token;
  finished : bool;
  buffer : JsVal;
  charstack : option (list (option string));
  callstack : option (list (option string))
}.

(** [new Context(initialState)]: the fields the constructor does not write
    are absent. *)
Definition new (initialState : option string) : t :=
  mk initialState None (-1) [] false VUndefined None None.

Definition set_state (s : option string) (c : t) : t :=
  mk s (currentItem c) (currentPosition c) (tokens c) (finished c)
     (buffer c) (charstack c) (callstack c).

Definition set_currentItem (i : option string) (c : t) : t :=
  mk (state c) i (currentPosition c) (tokens c) (finished c)
     (buffer c) (charstack c) (callstack c).

Definition set_currentPosition (p : Z) (c : t) : t :=
  mk (state c) (currentItem c) p (tokens c) (finished c)
     (buffer c) (charstack c) (callstack c).

Definition set_tokens (q : list Token) (c : t) : t :=
  mk (state c) (currentItem c) (currentPosition c) q (finished c)
     (buffer c) (charstack c) (callstack c).

Definition set_finished (f : bool) (c : t) : t :=
  mk (state c) (currentItem c) (currentPosition c) (tokens c) f
     (buffer c) (charstack c) (callstack c).

Definition set_buffer (b : JsVal) (c : t) : t :=
  mk (state c) (currentItem c) (currentPosition c) (tokens c) (finished c)
     b (charstack c) (callstack c).

Definition set_charstack (s : option (list (option string))) (c : t) : t :=
  mk (state c) (currentItem c) (currentPosition c) (tokens c) (finished c)
     (buffer c) s (callstack c).

Definition set_callstack (s : option (list (option string))) (c : t) : t :=
  mk (state c) (currentItem c) (currentPosition c) (tokens c) (finished c)
     (buffer c) (charstack c) s.

(** [changeState(state) { this.state = state; }] *)
Definition changeState (s : option string) (c : t) : t :=
  set_state s c.

(** [emit(token) { this.tokens.push(token); }] *)
Definition emit (tok : Token) (c : t) : t :=
  set_tokens (tokens c ++ [tok]) c.

(** [this.tokens.shift()]: the head of the queue, [undefined] when the queue
    is empty. *)
Definition shift (c : t) : option Token * t :=
  match tokens c with
  | [] => (None, c)
  | tok :: q => (Some tok, set_tokens q c)
  end.

End Context.

(** ** Actions and matchers

    Both are JavaScript functions of the context.  An action's return value
    is ignored by the engine; a matcher's is tested for truth. *)

Definition Action : Type := Context.t → Completion unit * Context.t.
Definition Matcher : Type := Context.t → Completion bool * Context.t.

(** An action that cannot throw. *)
Definition pure_action (f : Context.t → Context.t) : Action :=
  λ c, (Normal tt, f c).

(** [for (let action of actions) action(context);] *)
Fixpoint run_actions (acts : list Action) (c : Context.t)
  : Completion unit * Context.t :=
  match acts with
  | [] => (Normal tt, c)
  | a :: rest =>
      match a c with
      | (Normal _, c') => run_actions rest c'
      | (Throw e, c') => (Throw e, c')
      end
  end.

(** ** statemachine.js: state table, engine, builder *)

(** [{matcher: ..., actions}], an element of a state's [matchers] array. *)
Record Rule := mkRule { matcher : Matcher; actions : list Action }.

(** [{name, matchers: [], defaultActions: [], endActions: []}] *)
Record State := mkState {
  name : string;
  matchers : list Rule;
  defaultActions : list Action;
  endActions : list Action
}.

(** The [states] object, from state name to state object, and the heap that
    holds such objects; a location is an index into the heap. *)
Abbreviation StateTable := (gmap string State).
Abbreviation Heap := (list StateTable).

Definition read_table (h : Heap) (l : nat) : StateTable :=
  default ∅ (h !! l).

(** [state.matchers.find(m => m.matcher(context))]: the rules are tried in
    array order, the context is threaded through the matchers, and the scan
    stops at the first one that returns true. *)
Fixpoint find_rule (rules : list Rule) (c : Context.t)
  : Completion (option Rule) * Context.t :=
  match rules with
  | [] => (Normal None, c)
  | r :: rest =>
      match matcher r c with
      | (Normal true, c') => (Normal (Some r), c')
      | (Normal false, c') => find_rule rest c'
      | (Throw e, c') => (Throw e, c')
      end
  end.

(** The characters of a JavaScript string, as [iterable[i]] yields them. *)
Fixpoint chars_of (s : string) : list string :=
  match s with
  | EmptyString => []
  | String a rest => String a EmptyString :: chars_of rest
  end.

(** One run: the context and the input stream that the closure returned by
    [process] captures.  [pending] is what [streamify]'s stream has not yet
    handed out ([iterable] from [inputPosition] on); [pulls] is a ghost
    counter of the calls of [inputStream.next()]. *)
Record Run := mkRun {
  context : Context.t;
  pending : list string;
  pulls : nat
}.

Module StateMachine.

Record t := mk {
  defaultState : option string;
  states : nat;
  contextInitializer : Context.t → Context.t
}.

(** [process(input)]: a fresh context, initialised, and the input stream. *)
Definition process (m : t) (input : list string) : Run :=
  mkRun (contextInitializer m (Context.new (defaultState m))) input 0.

(** [context.currentItem = inputStream.next(); context.currentPosition++;]
    with [item] what the stream answered. *)
Definition pull_input (item : option string) (c : Context.t) : Context.t :=
  Context.set_currentPosition (Context.currentPosition c + 1)
    (Context.set_currentItem item c).

(** The body of the [do ... while] loop from the pull of the next input item
    on.  At the end of the input the stream keeps answering [undefined], so
    [pending] stays empty. *)
Fixpoint do_while (tbl : StateTable) (input : list string) (n : nat)
    (c : Context.t) {struct input} : Completion (option Token) * Run :=
  match input with
  | [] =>
      let c1 := pull_input None c in
      match tbl !! js_key (Context.state c1) with
      | None => (Throw TypeError, mkRun c1 [] (S n))
      | Some st =>
          match run_actions (endActions st) c1 with
          | (Throw e, c2) => (Throw e, mkRun c2 [] (S n))
          | (Normal _, c2) =>
              let (tok, c3) := Context.shift (Context.set_finished true c2) in
              (Normal tok, mkRun c3 [] (S n))
          end
      end
  | item :: rest =>
      let c1 := pull_input (Some item) c in
      match tbl !! js_key (Context.state c1) with
      | None => (Throw TypeError, mkRun c1 rest (S n))
      | Some st =>
          match find_rule (matchers st) c1 with
          | (Throw e, c2) => (Throw e, mkRun c2 rest (S n))
          | (Normal found, c2) =>
              let acts := match found with
                          | Some r => actions r
                          | None => defaultActions st
                          end in
              match run_actions acts c2 with
              | (Throw e, c3) => (Throw e, mkRun c3 rest (S n))
              | (Normal _, c3) =>
                  match Context.tokens c3 with
                  | [] => do_while tbl rest (S n) c3
                  | _ :: _ =>
                      let (tok, c4) := Context.shift c3 in
                      (Normal tok, mkRun c4 rest (S n))
                  end
              end
          end
      end
  end.

(** The [next] method of the stream returned by [process].  The table is
    read through the machine's reference at the time of the call. *)
Definition next (h : Heap) (m : t) (r : Run) : Completion (option Token) * Run :=
  let c := context r in
  if Context.finished c then (Normal None, r)
  else
    match Context.tokens c with
    | _ :: _ =>
        let (tok, c') := Context.shift c in
        (Normal tok, mkRun c' (pending r) (pulls r))
    | [] => do_while (read_table h (states m)) (pending r) (pulls r) c
    end.

End StateMachine.

(** The first argument of [.on()]: a function, a [RegExp] (abstracted to the
    set of strings it matches) or a literal. *)
Inductive MatcherArg :=
  | MFunction (f : Matcher)
  | MRegExp (re : string → bool)
  | MLiteral (m : string).

(** The names every plain object inherits from [Object.prototype]; what
    they give is a function, or for [__proto__] the prototype object: a
    truthy value that is neither an array nor iterable. *)
Definition object_prototype_member (nm : string) : bool :=
  bool_decide (nm ∈ ["constructor"; "__defineGetter__"; "__defineSetter__";
                     "hasOwnProperty"; "__lookupGetter__"; "__lookupSetter__";
                     "isPrototypeOf"; "propertyIsEnumerable"; "toString";
                     "valueOf"; "__proto__"; "toLocaleString"]).

Module StateMachineBuilder.

Record t := mk {
  states : nat;
  currentState : option string;
  defaultState : option string;
  matcherWrapper : MatcherArg → Matcher;
  contextInitializer : Context.t → Context.t
}.

(** The wrapper installed by the constructor.  A [RegExp] object is not a
    function and is never [===] to an item. *)
Definition default_wrapper (m : MatcherArg) : Matcher :=
  match m with
  | MFunction f => f
  | MRegExp _ => λ c, (Normal false, c)
  | MLiteral s => λ c, (Normal (js_strict_eq (Context.currentItem c) (Some s)), c)
  end.

(** [new StateMachineBuilder()]: allocates the [states] object. *)
Definition new (h : Heap) : Heap * t :=
  (h ++ [∅], mk (length h) None None default_wrapper (λ c, c)).

Definition setMatcherWrapper (w : MatcherArg → Matcher) (hb : Heap * t)
  : Completion (Heap * t) :=
  let (h, b) := hb in
  Normal (h, mk (states b) (currentState b) (defaultState b) w
                (contextInitializer b)).

Definition setContextInitializer (f : Context.t → Context.t) (hb : Heap * t)
  : Completion (Heap * t) :=
  let (h, b) := hb in
  Normal (h, mk (states b) (currentState b) (defaultState b)
                (matcherWrapper b) f).

(** [.state(name)].  [currentState] is what [this.states[name]] gives, kept
    as the name: the state object stored under it or, when there is none
    and the name is inherited, the member of [Object.prototype], which is
    truthy, so that no state is stored. *)
Definition state (nm : string) (hb : Heap * t) : Completion (Heap * t) :=
  let (h, b) := hb in
  let tbl := read_table h (states b) in
  let h' := match tbl !! nm with
            | Some _ => h
            | None =>
                if object_prototype_member nm then h
                else <[states b := <[nm := mkState nm [] [] []]> tbl]> h
            end in
  let d := if js_truthy (defaultState b) then defaultState b else Some nm in
  Normal (h', mk (states b) (Some nm) d (matcherWrapper b)
                 (contextInitializer b)).

(** An update of the state object [currentState] refers to; a property read
    of [undefined] when no state was opened.  When [currentState] is an
    inherited member the assignment lands on that member and the table is
    as before. *)
Definition update_current (f : State → State) (hb : Heap * t)
  : Completion (Heap * t) :=
  let (h, b) := hb in
  match currentState b with
  | None => Throw TypeError
  | Some nm => Normal (alter (alter f nm) (states b) h, b)
  end.

(** [.on(matcher, ...actions)]: [this.currentState.matchers.push(...)].
    Only a state object has [matchers]; on an inherited member the read
    gives [undefined] and the call of [push] throws. *)
Definition on (m : MatcherArg) (acts : list Action) (hb : Heap * t)
  : Completion (Heap * t) :=
  match currentState (snd hb) with
  | None => Throw TypeError
  | Some nm =>
      match read_table (fst hb) (states (snd hb)) !! nm with
      | None => Throw TypeError
      | Some _ =>
          update_current
            (λ st, mkState (name st)
                     (matchers st ++ [mkRule (matcherWrapper (snd hb) m) acts])
                     (defaultActions st) (endActions st)) hb
      end
  end.

(** [.onEnd(...actions)] *)
Definition onEnd (acts : list Action) (hb : Heap * t) : Completion (Heap * t) :=
  update_current
    (λ st, mkState (name st) (matchers st) (defaultActions st) acts) hb.

(** [.else(...actions)] *)
Definition else_ (acts : list Action) (hb : Heap * t) : Completion (Heap * t) :=
  update_current
    (λ st, mkState (name st) (matchers st) acts (endActions st)) hb.

(** [.build()]: the machine receives the builder's references. *)
Definition build (b : t) : StateMachine.t :=
  StateMachine.mk (defaultState b) (states b) (contextInitializer b).

End StateMachineBuilder.

(** Chaining of builder calls: a throw ends the chain. *)
Definition and_then {A B} (x : Completion A) (f : A → Completion B)
  : Completion B :=
  match x with
  | Normal a => f a
  | Throw e => Throw e
  end.

Notation "x |> f" := (and_then x f) (at level 61, left associativity).

(** ** tokenizer.js: the action vocabulary *)

Module Tokenizer.

(** [ctx => ctx.buffer += ctx.currentItem] *)
Definition accept : Action :=
  pure_action (λ c,
    Context.set_buffer
      (js_plus (Context.buffer c) (js_of_item (Context.currentItem c))) c).

(** [ctx => ctx.changeState(name)] *)
Definition state (name : string) : Action :=
  pure_action (Context.changeState (Some name)).

(** [ctx => { ctx.emit({type, value: ctx.buffer}); ctx.buffer = ""; }] *)
Definition emit (ty : string) : Action :=
  pure_action (λ c,
    Context.set_buffer (VString "")
      (Context.emit (mkToken ty (Context.buffer c)) c)).

(** The text of the thrown error:
    [`${msg} at position ${ctx.currentPosition} ('${ctx.currentItem}')`]. *)
Definition error_message (msg : string) (c : Context.t) : string :=
  msg +:+ " at position " +:+ pretty (Context.currentPosition c)
      +:+ " ('" +:+ js_to_string (js_of_item (Context.currentItem c)) +:+ "')".

Definition error (msg : string) : Action :=
  λ c, (Throw (Error (error_message msg c)), c).

(** [if (!ctx.charstack) ctx.charstack = []; ctx.charstack.push(ctx.currentItem);]
    The array is kept in push order: its top is its last element. *)
Definition push : Action :=
  pure_action (λ c,
    Context.set_charstack
      (Some (default [] (Context.charstack c) ++ [Context.currentItem c])) c).

(** [charstack[charstack.length-1]], [undefined] on an empty array. *)
Definition top (st : list (option string)) : option string :=
  default None (last st).

(** The matcher [pop()]. *)
Definition pop : Matcher :=
  λ c,
    match Context.charstack c with
    | None => (Normal false, c)
    | Some st =>
        if js_strict_eq (Context.currentItem c) (top st)
        then (Normal true, Context.set_charstack (Some (removelast st)) c)
        else (Normal false, c)
    end.

(** [if (!ctx.callstack) ctx.callstack = []; ctx.callstack.push(ctx.state);
     ctx.changeState(state);] *)
Definition call (target : string) : Action :=
  pure_action (λ c,
    Context.changeState (Some target)
      (Context.set_callstack
         (Some (default [] (Context.callstack c) ++ [Context.state c])) c)).

(** [if (!ctx.callstack || ctx.callstack.length < 1) throw ...;
     ctx.changeState(ctx.callstack.pop());] *)
Definition ret : Action :=
  λ c,
    match Context.callstack c with
    | None | Some [] =>
        (Throw (Error ("Can't return from state '"
                         +:+ js_to_string (js_of_item (Context.state c))
                         +:+ "'; callstack empty")), c)
    | Some st =>
        (Normal tt,
         Context.changeState (top st)
           (Context.set_callstack (Some (removelast st)) c))
    end.

(** The wrapper [Tokenizer()] installs; [undefined.match] is a property read
    of [undefined]. *)
Definition tokenizer_wrapper (m : MatcherArg) : Matcher :=
  match m with
  | MFunction f => f
  | MRegExp re =>
      λ c, match Context.currentItem c with
           | None => (Throw TypeError, c)
           | Some s => (Normal (re s), c)
           end
  | MLiteral s => λ c, (Normal (js_strict_eq (Context.currentItem c) (Some s)), c)
  end.

(** [Tokenizer()] *)
Definition Tokenizer (h : Heap) : Completion (Heap * StateMachineBuilder.t) :=
  Normal (StateMachineBuilder.new h)
    |> StateMachineBuilder.setMatcherWrapper tokenizer_wrapper
    |> StateMachineBuilder.setContextInitializer
         (Context.set_buffer (VString "")).

End Tokenizer.

(** ** Consuming a run *)

(** [n] successive calls of [next] on one run, with what each call
    completed with; the consumer goes on after a throw, as a caller that
    catches could. *)
Fixpoint pull (n : nat) (h : Heap) (m : StateMachine.t) (r : Run)
  : list (Completion (option Token)) * Run :=
  match n with
  | O => ([], r)
  | S k =>
      let (o, r1) := StateMachine.next h m r in
      let (os, r2) := pull k h m r1 in
      (o :: os, r2)
  end.

(** The run state after [n] calls of [next]. *)
Definition after (n : nat) (h : Heap) (m : StateMachine.t) (r : Run) : Run :=
  snd (pull n h m r).

(** The completion of call number [n] (from 0) of [next]. *)
Definition nth_pull (n : nat) (h : Heap) (m : StateMachine.t) (r : Run)
  : Completion (option Token) :=
  fst (StateMachine.next h m (after n h m r)).

(** [.build()] at the end of a chain of builder calls. *)
Definition built (x : Completion (Heap * StateMachineBuilder.t))
  : Completion (Heap * StateMachine.t) :=
  x |> (λ hb, Normal (fst hb, StateMachineBuilder.build (snd hb))).

(** ** The tokenizers of the scenarios *)

Module Scenario.
Module B := StateMachineBuilder.
Module T := Tokenizer.

(** The colour-tag tokenizer: states [text] and [color]. *)
Definition A : Completion (Heap * StateMachineBuilder.t) :=
  T.Tokenizer []
    |> B.state "text"
    |> B.on (MLiteral "[") [T.emit "text"; T.state "color"]
    |> B.onEnd [T.emit "text"]
    |> B.else_ [T.accept]
    |> B.state "color"
    |> B.on (MLiteral "]") [T.emit "color"; T.state "text"]
    |> B.else_ [T.accept].

(** As [A], with an end-of-input rule on [color] that aborts. *)
Definition C : Completion (Heap * StateMachineBuilder.t) :=
  A |> B.onEnd [T.error "Unclosed color tag"].

End Scenario.

(** ** Fixtures and predicates used by the properties *)

(** The table the chain of [Scenario.A] leaves in the heap. *)
Definition A_table : StateTable :=
  {[ "text" :=
       mkState "text"
         [mkRule (Tokenizer.tokenizer_wrapper (MLiteral "["))
                 [Tokenizer.emit "text"; Tokenizer.state "color"]]
         [Tokenizer.accept]
         [Tokenizer.emit "text"];
     "color" :=
       mkState "color"
         [mkRule (Tokenizer.tokenizer_wrapper (MLiteral "]"))
                 [Tokenizer.emit "color"; Tokenizer.state "text"]]
         [Tokenizer.accept]
         [] ]}.

(** The same with the aborting end-of-input rule on [color]. *)
Definition C_table : StateTable :=
  {[ "text" :=
       mkState "text"
         [mkRule (Tokenizer.tokenizer_wrapper (MLiteral "["))
                 [Tokenizer.emit "text"; Tokenizer.state "color"]]
         [Tokenizer.accept]
         [Tokenizer.emit "text"];
     "color" :=
       mkState "color"
         [mkRule (Tokenizer.tokenizer_wrapper (MLiteral "]"))
                 [Tokenizer.emit "color"; Tokenizer.state "text"]]
         [Tokenizer.accept]
         [Tokenizer.error "Unclosed color tag"] ]}.

(** The machine both chains build: initial state [text], table at location
    0, the tokenizer's initializer. *)
Definition tag_machine : StateMachine.t :=
  StateMachine.mk (Some "text") 0%nat (Context.set_buffer (VString "")).

(** The builder at the end of both chains: [color] is the open state. *)
Definition tag_builder : StateMachineBuilder.t :=
  StateMachineBuilder.mk 0%nat (Some "color") (Some "text")
    Tokenizer.tokenizer_wrapper (Context.set_buffer (VString "")).

(** Where a run of Scenario C is once the input ended inside a tag: in
    [color], nothing queued, not finished, input exhausted. *)
Definition stuck_in_color (r : Run) : Prop :=
  Context.state (context r) = Some "color" ∧
  Context.tokens (context r) = [] ∧
  Context.finished (context r) = false ∧
  pending r = [].

(** What C7 says of [pop] on a context [c] whose current item is [x]. *)
Definition pop_discipline (c : Context.t) (x : string) : Prop :=
  (fst (Tokenizer.pop c) = Normal true
     ↔ ∃ st, Context.charstack c = Some (st ++ [Some x])) ∧
  (∀ st, Context.charstack c = Some (st ++ [Some x]) →
     Tokenizer.pop c = (Normal true, Context.set_charstack (Some st) c)) ∧
  (fst (Tokenizer.pop c) ≠ Normal true → Tokenizer.pop c = (Normal false, c)) ∧
  Tokenizer.pop (snd (Tokenizer.push c)) =
    (Normal true,
     Context.set_charstack (Some (default [] (Context.charstack c))) c).

(** A context in the middle of a quoted attribute value: the opening quote
    was pushed, the current item is the closing quote. *)
Definition quoted_context : Context.t :=
  Context.mk (Some "attribute_value") (Some "'") 9 [] false (VString "blue")
    (Some [Some "'"]) None.

(** What C10 says of [pop] on a context [c]. *)
Definition pop_never_fires (c : Context.t) : Prop :=
  (∀ x, let c1 := Context.set_currentItem (Some x) c in
        Tokenizer.pop c1 = (Normal false, c1)) ∧
  (∀ x acts rest, let c1 := Context.set_currentItem (Some x) c in
        find_rule (mkRule Tokenizer.pop acts :: rest) c1 = find_rule rest c1).

(** The context once an item was pulled: [currentItem] and
    [currentPosition] are written before anything else happens. *)
Definition pulled_item (item : string) (c : Context.t) : Context.t :=
  StateMachine.pull_input (Some item) c.

(** The rest of an iteration once the chosen action list was run: a throw
    leaves the loop, a queued token is returned, and otherwise the loop goes
    on with the next item, in whatever state the context is now. *)
Definition after_actions (tbl : StateTable) (rest : list string) (n : nat)
    (res : Completion unit * Context.t) : Completion (option Token) * Run :=
  match res with
  | (Throw e, c3) => (Throw e, mkRun c3 rest n)
  | (Normal _, c3) =>
      match Context.tokens c3 with
      | [] => StateMachine.do_while tbl rest n c3
      | _ :: _ =>
          let (tok, c4) := Context.shift c3 in
          (Normal tok, mkRun c4 rest n)
      end
  end.

(** A state with two rules on the same literal. *)
Definition first_rule : Rule :=
  mkRule (Tokenizer.tokenizer_wrapper (MLiteral "x")) [Tokenizer.emit "first"].

Definition second_rule : Rule :=
  mkRule (Tokenizer.tokenizer_wrapper (MLiteral "x")) [Tokenizer.emit "second"].

Definition twice_state : State :=
  mkState "s" [first_rule; second_rule] [] [].

Definition twice_table : StateTable := {[ "s" := twice_state ]}.

Definition twice_context : Context.t :=
  Context.set_buffer (VString "") (Context.new (Some "s")).

(** A tokenizer whose rule on ["x"] in state [a] requests a transition to
    [b] and then calls [c]. *)
Definition transit : Completion (Heap * StateMachineBuilder.t) :=
  Tokenizer.Tokenizer []
    |> StateMachineBuilder.state "a"
    |> StateMachineBuilder.on (MLiteral "x")
         [Tokenizer.state "b"; Tokenizer.call "c"]
    |> StateMachineBuilder.state "b"
    |> StateMachineBuilder.state "c".

Definition transit_rule : Rule :=
  mkRule (Tokenizer.tokenizer_wrapper (MLiteral "x"))
         [Tokenizer.state "b"; Tokenizer.call "c"].

Definition transit_table : StateTable :=
  {[ "a" := mkState "a" [transit_rule] [] [];
     "b" := mkState "b" [] [] [];
     "c" := mkState "c" [] [] [] ]}.

Definition transit_machine : StateMachine.t :=
  StateMachine.mk (Some "a") 0%nat (Context.set_buffer (VString "")).

(** The reading of C1 on one rule: a [call] that follows a transition in
    the same action list pushes the state name the context had when the
    list started. *)
Definition call_pushes_matched_state (c : Context.t) (target callee : string)
  : Prop :=
  Context.callstack
    (snd (run_actions [Tokenizer.state target; Tokenizer.call callee] c))
  = Some (default [] (Context.callstack c) ++ [Context.state c]).

(** A tokenizer whose only state queues two tokens at the end of the
    input. *)
Definition two_at_end : Completion (Heap * StateMachineBuilder.t) :=
  Tokenizer.Tokenizer []
    |> StateMachineBuilder.state "s"
    |> StateMachineBuilder.onEnd [Tokenizer.emit "a"; Tokenizer.emit "b"].

Definition two_at_end_table : StateTable :=
  {[ "s" := mkState "s" [] [] [Tokenizer.emit "a"; Tokenizer.emit "b"] ]}.

Definition two_at_end_machine : StateMachine.t :=
  StateMachine.mk (Some "s") 0%nat (Context.set_buffer (VString "")).

(** Actions and matchers that do not write [currentPosition].  The engine
    hands the context to arbitrary functions; the vocabulary of the
    tokenizer is of this kind. *)
Definition keeps_position {A} (f : Context.t → Completion A * Context.t) : Prop :=
  ∀ c, Context.currentPosition (snd (f c)) = Context.currentPosition c.

Definition state_keeps_position (st : State) : Prop :=
  Forall (λ r, keeps_position (matcher r) ∧ Forall keeps_position (actions r))
         (matchers st) ∧
  Forall keeps_position (defaultActions st) ∧
  Forall keeps_position (endActions st).

Definition table_keeps_position (tbl : StateTable) : Prop :=
  map_Forall (λ _ st, state_keeps_position st) tbl.

(** The counter is the number of input pulls so far, less one. *)
Definition position_counts_pulls (r : Run) : Prop :=
  Context.currentPosition (context r) = Z.of_nat (pulls r) - 1.

(** The calls a builder receives. *)
Inductive BuilderCall :=
  | CallState (nm : string)
  | CallOn (m : MatcherArg) (acts : list Action)
  | CallOnEnd (acts : list Action)
  | CallElse (acts : list Action)
  | CallSetMatcherWrapper (w : MatcherArg → Matcher)
  | CallSetContextInitializer (f : Context.t → Context.t).

Definition apply_call (k : BuilderCall) (hb : Heap * StateMachineBuilder.t)
  : Completion (Heap * StateMachineBuilder.t) :=
  match k with
  | CallState nm => StateMachineBuilder.state nm hb
  | CallOn m acts => StateMachineBuilder.on m acts hb
  | CallOnEnd acts => StateMachineBuilder.onEnd acts hb
  | CallElse acts => StateMachineBuilder.else_ acts hb
  | CallSetMatcherWrapper w => StateMachineBuilder.setMatcherWrapper w hb
  | CallSetContextInitializer f => StateMachineBuilder.setContextInitializer f hb
  end.

Fixpoint apply_calls (ks : list BuilderCall) (hb : Heap * StateMachineBuilder.t)
  : Completion (Heap * StateMachineBuilder.t) :=
  match ks with
  | [] => Normal hb
  | k :: rest => apply_call k hb |> apply_calls rest
  end.

(** ** util.js: streams *)

Module Stream.
Section Streamify.
Context {A : Type}.

(** The closure [streamify] returns: the iterable and [inputPosition]. *)
Record t := mk { iterable : list A; inputPosition : nat }.

(** [streamify(iterable)] on an array or a string. *)
Definition streamify (xs : list A) : t := mk xs 0.

(** [if (inputPosition >= iterable.length) return undefined;
     return iterable[inputPosition++];] *)
Definition next (s : t) : option A * t :=
  if (length (iterable s) <=? inputPosition s)%nat
  then (None, s)
  else (iterable s !! inputPosition s,
        mk (iterable s) (S (inputPosition s))).

(** The stream after [k] calls of [next]. *)
Fixpoint advance (k : nat) (s : t) : t :=
  match k with
  | O => s
  | S k' => advance k' (snd (next s))
  end.

End Streamify.
End Stream.

Module StreamOperator.
Section Operator.
Context {V W St : Type}.

(** The operator, with the state its closure keeps: called on a value (or
    on [undefined] at finalization), it returns the values it passed to
    [emit], in order. *)
Variable operator : St → option V → St * list W.

(** The closure [streamOperator] returns: the source stream (what it has
    not handed out yet), [buffer], [finalize] and the operator's state. *)
Record t := mk {
  source : list V;
  buffer : list W;
  finalize : bool;
  opstate : St
}.

(** [streamOperator(stream, operator, finalize)] *)
Definition streamOperator (stream : list V) (fin : bool) (s : St) : t :=
  mk stream [] fin s.

(** The [while (true)] loop; it is entered with an empty buffer. *)
Fixpoint loop (src : list V) (fin : bool) (s : St) : option W * t :=
  match src with
  | [] =>
      if fin then
        let (s', out) := operator s None in
        match out with
        | [] => (None, mk [] [] false s')
        | w :: b => (Some w, mk [] b false s')
        end
      else (None, mk [] [] false s)
  | v :: rest =>
      let (s', out) := operator s (Some v) in
      match out with
      | [] => loop rest fin s'
      | w :: b => (Some w, mk rest b fin s')
      end
  end.

(** The [next] method. *)
Definition next (o : t) : option W * t :=
  match buffer o with
  | w :: b => (Some w, mk (source o) b (finalize o) (opstate o))
  | [] => loop (source o) (finalize o) (opstate o)
  end.

Fixpoint advance (k : nat) (o : t) : t :=
  match k with
  | O => o
  | S k' => advance k' (snd (next o))
  end.

(** Everything the operator emits on the rest of the source, in order. *)
Fixpoint emitted (src : list V) (fin : bool) (s : St) : list W :=
  match src with
  | [] => if fin then snd (operator s None) else []
  | v :: rest =>
      snd (operator s (Some v)) ++ emitted rest fin (fst (operator s (Some v)))
  end.

(** What is still to come out of an operated stream. *)
Definition outstanding (o : t) : list W :=
  buffer o ++ emitted (source o) (finalize o) (opstate o).

End Operator.
End StreamOperator.

(** [for (let value; value = stream.next();) consumer(value);] over a
    stream given by its [next]; [truthy] is the truth value of an item and
    the consumer's effect is a state change.  The loop is bounded by
    [fuel]; [None] is an exhausted bound. *)
Fixpoint consumeStream {St A Acc : Type} (truthy : A → bool)
    (next : St → option A * St) (consumer : A → Acc → Acc)
    (fuel : nat) (s : St) (acc : Acc) : option (Acc * St) :=
  match fuel with
  | O => None
  | S fuel' =>
      match next s with
      | (Some v, s') =>
          if truthy v
          then consumeStream truthy next consumer fuel' s' (consumer v acc)
          else Some (acc, s')
      | (None, s') => Some (acc, s')
      end
  end.

(** Truth value of a string: only the empty string is falsy. *)
Definition string_truthy (s : string) : bool := negb (String.eqb s "").

(** ** Further predicates *)

(** What the builder keeps true of its table: the location is allocated;
    every state object is stored under its own name, which is never the
    name of a member of [Object.prototype]; and the open state is in the
    table unless it was opened under such a name, in which case nothing is
    stored under it. *)
Definition builder_wf (hb : Heap * StateMachineBuilder.t) : Prop :=
  (StateMachineBuilder.states (snd hb) < length (fst hb))%nat ∧
  (∀ nm st, read_table (fst hb) (StateMachineBuilder.states (snd hb)) !! nm
              = Some st → name st = nm ∧ object_prototype_member nm = false) ∧
  (∀ nm, StateMachineBuilder.currentState (snd hb) = Some nm →
         if object_prototype_member nm
         then read_table (fst hb) (StateMachineBuilder.states (snd hb)) !! nm = None
         else is_Some (read_table (fst hb) (StateMachineBuilder.states (snd hb)) !! nm)).

(** A call that does not open a state under the name of a member of
    [Object.prototype]. *)
Definition declares_plain_name (k : BuilderCall) : Prop :=
  match k with
  | CallState nm => object_prototype_member nm = false
  | _ => True
  end.

(** A call that does not open a state under [__proto__], the one name
    under which [onEnd] and [else] would assign to [Object.prototype]
    itself. *)
Definition leaves_object_prototype (k : BuilderCall) : Prop :=
  match k with
  | CallState nm => nm ≠ "__proto__"
  | _ => True
  end.

(** The builder has a state object open: its location is allocated and
    [currentState] is an entry of its table. *)
Definition state_object_open (hb : Heap * StateMachineBuilder.t) : Prop :=
  (StateMachineBuilder.states (snd hb) < length (fst hb))%nat ∧
  ∃ nm, StateMachineBuilder.currentState (snd hb) = Some nm ∧
        is_Some (read_table (fst hb) (StateMachineBuilder.states (snd hb)) !! nm).

(** The calls that define a rule of the open state. *)
Definition is_rule_call (k : BuilderCall) : bool :=
  match k with
  | CallOn _ _ | CallOnEnd _ | CallElse _ => true
  | _ => false
  end.

(** The text of a list of items, concatenated. *)
Definition text_of (xs : list string) : string :=
  foldr String.append "" xs.

(** A rule that emits and then aborts. *)
Definition emit_then_abort_rule : Rule :=
  mkRule (Tokenizer.tokenizer_wrapper (MLiteral "!"))
         [Tokenizer.emit "text"; Tokenizer.error "Bang"; Tokenizer.emit "never"].

Definition emit_then_abort_table : StateTable :=
  {[ "s" := mkState "s" [emit_then_abort_rule] [Tokenizer.accept] [] ]}.

(** The longest prefix of truthy items. *)
Fixpoint truthy_prefix {A : Type} (truthy : A → bool) (xs : list A) : list A :=
  match xs with
  | [] => []
  | x :: rest => if truthy x then x :: truthy_prefix truthy rest else []
  end.

(** Actions and matchers that do not write [finished]; the vocabulary of
    the tokenizer is of this kind. *)
Definition keeps_finished {A} (f : Context.t → Completion A * Context.t) : Prop :=
  ∀ c, Context.finished (snd (f c)) = Context.finished c.

Definition state_keeps_finished (st : State) : Prop :=
  Forall (λ r, keeps_finished (matcher r) ∧ Forall keeps_finished (actions r))
         (matchers st) ∧
  Forall keeps_finished (defaultActions st) ∧
  Forall keeps_finished (endActions st).

Definition table_keeps_finished (tbl : StateTable) : Prop :=
  map_Forall (λ _ st, state_keeps_finished st) tbl.

(** The whole input processed at once, from a context with an empty queue:
    the tokens in the order a consumer receives them, and how the run
    ends, with [undefined] ([None]) or with a throw.  After each item the
    tokens it queued are taken out before the next item is read; of the
    tokens queued by the end-of-input actions only the first is
    delivered. *)
Fixpoint eager (tbl : StateTable) (input : list string) (c : Context.t)
  : list Token * option JsError :=
  match input with
  | [] =>
      let c1 := StateMachine.pull_input None c in
      match tbl !! js_key (Context.state c1) with
      | None => ([], Some TypeError)
      | Some st =>
          match run_actions (endActions st) c1 with
          | (Throw e, _) => ([], Some e)
          | (Normal _, c2) => (take 1 (Context.tokens c2), None)
          end
      end
  | item :: rest =>
      let c1 := StateMachine.pull_input (Some item) c in
      match tbl !! js_key (Context.state c1) with
      | None => ([], Some TypeError)
      | Some st =>
          match find_rule (matchers st) c1 with
          | (Throw e, _) => ([], Some e)
          | (Normal found, c2) =>
              let acts := match found with
                          | Some r => actions r
                          | None => defaultActions st
                          end in
              match run_actions acts c2 with
              | (Throw e, _) => ([], Some e)
              | (Normal _, c3) =>
                  let tr := eager tbl rest (Context.set_tokens [] c3) in
                  (Context.tokens c3 ++ fst tr, snd tr)
              end
          end
      end
  end.

(** The successive calls of [next] on a run follow a trace: they return
    its tokens in order; then, if the trace ends normally, [undefined]
    for ever, and if it ends in a throw, that throw. *)
Definition follows_trace (h : Heap) (m : StateMachine.t) (r : Run)
    (tr : list Token * option JsError) : Prop :=
  (∀ k tok, fst tr !! k = Some tok → nth_pull k h m r = Normal (Some tok)) ∧
  (snd tr = None → ∀ k, (length (fst tr) ≤ k)%nat → nth_pull k h m r = Normal None) ∧
  (∀ e, snd tr = Some e → nth_pull (length (fst tr)) h m r = Throw e).

(** Actions and matchers that leave a view of the context as it is. *)
Definition keeps {A B} (view : Context.t → B)
    (f : Context.t → Completion A * Context.t) : Prop :=
  ∀ c, view (snd (f c)) = view c.

Definition table_keeps {B} (view : Context.t → B) (tbl : StateTable) : Prop :=
  map_Forall (λ _ st,
    Forall (λ r, keeps view (matcher r) ∧ Forall (keeps view) (actions r))
           (matchers st) ∧
    Forall (keeps view) (defaultActions st) ∧
    Forall (keeps view) (endActions st)) tbl.

(** The current item and its position. *)
Definition item_and_position (c : Context.t) : option string * Z :=
  (Context.currentItem c, Context.currentPosition c).

(** The run is where [n] pulls on [input] put it: the counter is [n - 1],
    the stream has handed out the first [n] items, and the current item
    is the one of index [n - 1], [undefined] past the end. *)
Definition at_pull (input : list string) (r : Run) : Prop :=
  Context.currentPosition (context r) = Z.of_nat (pulls r) - 1 ∧
  pending r = drop (pulls r) input ∧
  ((0 < pulls r)%nat →
   Context.currentItem (context r) = input !! (pulls r - 1)%nat).

(** The items of a sequence of closed tags, each with the text before it:
    [t1 [ c1 ] t2 [ c2 ] ...]. *)
Fixpoint closed_tags (segs : list (list string * list string)) : list string :=
  match segs with
  | [] => []
  | seg :: more => fst seg ++ "[" :: snd seg ++ "]" :: closed_tags more
  end.

(** The tokens of such a sequence: for each tag the text before it and its
    colour. *)
Fixpoint tag_tokens (segs : list (list string * list string)) : list Token :=
  match segs with
  | [] => []
  | seg :: more =>
      mkToken "text" (VString (text_of (fst seg)))
        :: mkToken "color" (VString (text_of (snd seg))) :: tag_tokens more
  end.

(** * Properties *)

(** ** The builder chains *)

Lemma Scenario_A_chain : Scenario.A = Normal ([A_table], tag_builder).
Proof. vm_compute. reflexivity. Qed.

Lemma Scenario_C_chain : Scenario.C = Normal ([C_table], tag_builder).
Proof. vm_compute. reflexivity. Qed.

Lemma tag_builder_build : StateMachineBuilder.build tag_builder = tag_machine.
Proof. reflexivity. Qed.

(** ** Successive pulls *)

Lemma pull_S n h m r :
  pull (S n) h m r =
    (fst (StateMachine.next h m r) :: fst (pull n h m (snd (StateMachine.next h m r))),
     snd (pull n h m (snd (StateMachine.next h m r)))).
Proof.
  simpl. destruct (StateMachine.next h m r) as [o r1]. simpl.
  destruct (pull n h m r1) as [os r2]. reflexivity.
Qed.

Lemma after_S n h m r :
  after (S n) h m r = after n h m (snd (StateMachine.next h m r)).
Proof. unfold after. rewrite pull_S. reflexivity. Qed.

Lemma after_add a b h m r :
  after (a + b) h m r = after b h m (after a h m r).
Proof.
  revert r. induction a as [|a IH]; intros r; [reflexivity|].
  change (S a + b)%nat with (S (a + b)). rewrite !after_S. apply IH.
Qed.

Lemma nth_pull_add a b h m r :
  nth_pull (a + b) h m r = nth_pull b h m (after a h m r).
Proof. unfold nth_pull. rewrite after_add. reflexivity. Qed.

(** A finished run answers every call with [undefined] and does nothing. *)
Lemma next_finished h m r :
  Context.finished (context r) = true →
  StateMachine.next h m r = (Normal None, r).
Proof. intros Hf. unfold StateMachine.next. rewrite Hf. reflexivity. Qed.

Lemma after_finished n h m r :
  Context.finished (context r) = true → after n h m r = r.
Proof.
  intros Hf. induction n as [|n IH]; [reflexivity|].
  rewrite after_S, next_finished by exact Hf. exact IH.
Qed.

Lemma nth_pull_finished n h m r :
  Context.finished (context r) = true → nth_pull n h m r = Normal None.
Proof.
  intros Hf. unfold nth_pull.
  rewrite after_finished, next_finished by exact Hf. reflexivity.
Qed.

(** ** Scenario A: the colour-tag tokenizer on ["a[b]c"] *)

(** C6.  The tokenizer of Scenario A (the builder chain [Scenario.A], which
    builds [tag_machine] over [A_table]) run on ["a[b]c"] returns, on its
    first three pulls, the tokens text "a", color "b", text "c" in that
    order, and on every later pull the end-of-sequence signal. *)
Theorem scenario_A_tokens :
  built Scenario.A = Normal ([A_table], tag_machine) ∧
  let r := StateMachine.process tag_machine (chars_of "a[b]c") in
  fst (pull 3 [A_table] tag_machine r) =
    [Normal (Some (mkToken "text" (VString "a")));
     Normal (Some (mkToken "color" (VString "b")));
     Normal (Some (mkToken "text" (VString "c")))] ∧
  ∀ n, nth_pull (3 + n) [A_table] tag_machine r = Normal None.
Proof.
  split; [unfold built; rewrite Scenario_A_chain; reflexivity|].
  split; [vm_compute; reflexivity|].
  intros n. rewrite nth_pull_add. apply nth_pull_finished.
  vm_compute. reflexivity.
Qed.

(** ** Scenario C: an unclosed tag *)

Lemma C_table_color :
  C_table !! "color" =
    Some (mkState "color"
            [mkRule (Tokenizer.tokenizer_wrapper (MLiteral "]"))
                    [Tokenizer.emit "color"; Tokenizer.state "text"]]
            [Tokenizer.accept]
            [Tokenizer.error "Unclosed color tag"]).
Proof. vm_compute. reflexivity. Qed.

(** In that situation a pull throws again and leaves the run there. *)
Lemma stuck_in_color_next r :
  stuck_in_color r →
  (∃ msg, fst (StateMachine.next [C_table] tag_machine r) = Throw (Error msg)) ∧
  stuck_in_color (snd (StateMachine.next [C_table] tag_machine r)).
Proof.
  intros (Hs & Ht & Hf & Hp).
  unfold StateMachine.next. rewrite Hf, Ht, Hp.
  change (read_table [C_table] (StateMachine.states tag_machine)) with C_table.
  cbn [StateMachine.do_while].
  change (Context.state (StateMachine.pull_input None (context r)))
    with (Context.state (context r)).
  rewrite Hs. cbn [js_key]. rewrite C_table_color.
  cbn [endActions run_actions Tokenizer.error fst snd].
  split; [eexists; reflexivity|].
  unfold stuck_in_color. cbn. auto.
Qed.

Lemma stuck_in_color_after n r :
  stuck_in_color r → stuck_in_color (after n [C_table] tag_machine r).
Proof.
  revert r. induction n as [|n IH]; intros r Hr; [exact Hr|].
  rewrite after_S. apply IH. apply stuck_in_color_next. exact Hr.
Qed.

(** C5.  The tokenizer of Scenario C run on ["a[b"] returns the token text
    "a" on the first pull; the second pull throws an error whose text
    carries the message "Unclosed color tag", the position 3 and the
    end-of-input item ([undefined]), with the context at position 3 and no
    current item; no later pull ever returns: each one throws again. *)
Theorem scenario_C_unclosed_tag :
  built Scenario.C = Normal ([C_table], tag_machine) ∧
  let r := StateMachine.process tag_machine (chars_of "a[b") in
  nth_pull 0 [C_table] tag_machine r
    = Normal (Some (mkToken "text" (VString "a"))) ∧
  nth_pull 1 [C_table] tag_machine r
    = Throw (Error "Unclosed color tag at position 3 ('undefined')") ∧
  Tokenizer.error_message "Unclosed color tag"
      (context (after 2 [C_table] tag_machine r))
    = "Unclosed color tag at position 3 ('undefined')" ∧
  Context.currentPosition (context (after 2 [C_table] tag_machine r)) = 3 ∧
  Context.currentItem (context (after 2 [C_table] tag_machine r)) = None ∧
  ∀ n, ∃ msg, nth_pull (1 + n) [C_table] tag_machine r = Throw (Error msg).
Proof.
  split; [unfold built; rewrite Scenario_C_chain; reflexivity|].
  repeat (split; [vm_compute; reflexivity|]).
  intros [|n]; [eexists; vm_compute; reflexivity|].
  change (1 + S n)%nat with (2 + n)%nat.
  rewrite nth_pull_add. unfold nth_pull.
  apply stuck_in_color_next, stuck_in_color_after.
  unfold stuck_in_color. vm_compute. auto.
Qed.

(** ** The value stack: [push] and the matcher [pop] *)

Lemma top_snoc st (y : option string) : Tokenizer.top (st ++ [y]) = y.
Proof. unfold Tokenizer.top. rewrite last_snoc. reflexivity. Qed.

Lemma js_strict_eq_true a b : js_strict_eq a b = true ↔ a = b.
Proof. unfold js_strict_eq. apply bool_decide_eq_true. Qed.

Lemma js_strict_eq_false a b : js_strict_eq a b = false ↔ a ≠ b.
Proof. unfold js_strict_eq. apply bool_decide_eq_false. Qed.

(** What [pop] does on a context whose stack array exists, by cases on the
    array. *)
Lemma pop_array_empty c :
  Context.charstack c = Some [] →
  Tokenizer.pop c =
    if js_strict_eq (Context.currentItem c) None
    then (Normal true, Context.set_charstack (Some []) c)
    else (Normal false, c).
Proof. intros H. unfold Tokenizer.pop. rewrite H. reflexivity. Qed.

Lemma pop_array_snoc c st y :
  Context.charstack c = Some (st ++ [y]) →
  Tokenizer.pop c =
    if js_strict_eq (Context.currentItem c) y
    then (Normal true, Context.set_charstack (Some st) c)
    else (Normal false, c).
Proof.
  intros H. unfold Tokenizer.pop. rewrite H, top_snoc, removelast_last.
  reflexivity.
Qed.

(** C7.  On a context whose current item is an input item [x] (the engine
    evaluates matchers on nothing else), [pop] returns true exactly when the
    top of the value stack, the last pushed entry not yet popped, is [x];
    it then removes that entry and nothing else; when it does not return
    true it returns false and leaves the context as it was; and right after
    [push] it matches the item just pushed and restores the stack. *)
Theorem pop_matches_and_removes_top (c : Context.t) (x : string) :
  Context.currentItem c = Some x → pop_discipline c x.
Proof.
  intros Hx. unfold pop_discipline.
  assert (Hsnoc : ∀ st, Context.charstack c = Some (st ++ [Some x]) →
            Tokenizer.pop c = (Normal true, Context.set_charstack (Some st) c)).
  { intros st H. rewrite (pop_array_snoc _ _ _ H), Hx.
    replace (js_strict_eq (Some x) (Some x)) with true; [reflexivity|].
    symmetry. apply js_strict_eq_true. reflexivity. }
  assert (Hcases : (∃ st, Context.charstack c = Some (st ++ [Some x]))
                   ∨ Tokenizer.pop c = (Normal false, c)).
  { destruct (Context.charstack c) as [st|] eqn:Hst.
    - destruct st as [|y st _] using rev_ind.
      + right. rewrite (pop_array_empty _ Hst), Hx. reflexivity.
      + destruct (js_strict_eq (Some x) y) eqn:Hy.
        * apply js_strict_eq_true in Hy. subst y. left. eauto.
        * right. rewrite (pop_array_snoc _ _ _ Hst), Hx, Hy. reflexivity.
    - right. unfold Tokenizer.pop. rewrite Hst. reflexivity. }
  repeat split.
  - intros Ht. destruct Hcases as [H|H]; [exact H|].
    rewrite H in Ht. discriminate.
  - intros [st H]. rewrite (Hsnoc st H). reflexivity.
  - exact Hsnoc.
  - intros Hn. destruct Hcases as [[st H]|H]; [|exact H].
    rewrite (Hsnoc st H) in Hn. contradiction.
  - rewrite (pop_array_snoc _ (default [] (Context.charstack c))
               (Context.currentItem c)); [|reflexivity].
    cbn. rewrite Hx.
    replace (js_strict_eq (Some x) (Some x)) with true.
    + destruct c; reflexivity.
    + symmetry. apply js_strict_eq_true. reflexivity.
Qed.

Lemma pop_matches_and_removes_top_witness :
  Context.currentItem quoted_context = Some "'" ∧
  pop_discipline quoted_context "'".
Proof.
  split; [reflexivity|].
  apply (pop_matches_and_removes_top quoted_context "'"). reflexivity.
Defined.

(** C10.  On a context whose value stack was never written ([charstack]
    absent) or is empty again, [pop] evaluated on any input item returns
    false, does not throw and leaves the context as it is; so the scan of
    the rules passes over a rule guarded by [pop] without firing it. *)
Theorem pop_on_empty_stack (c : Context.t) :
  Context.charstack c = None ∨ Context.charstack c = Some [] →
  pop_never_fires c.
Proof.
  intros Hc.
  assert (Hpop : ∀ x, Tokenizer.pop (Context.set_currentItem (Some x) c)
                      = (Normal false, Context.set_currentItem (Some x) c)).
  { intros x. unfold Tokenizer.pop. cbn.
    destruct Hc as [-> | ->]; reflexivity. }
  split; intros x; [apply Hpop|].
  intros acts rest c1. subst c1. cbn [find_rule matcher].
  rewrite Hpop. reflexivity.
Qed.

Lemma pop_on_empty_stack_witness :
  pop_never_fires (Context.set_buffer (VString "") (Context.new (Some "text"))).
Proof.
  apply (pop_on_empty_stack
           (Context.set_buffer (VString "") (Context.new (Some "text")))).
  left. reflexivity.
Defined.

(** ** One iteration of the run loop *)

(** An action list run in two parts. *)
Lemma run_actions_app front back c c' :
  run_actions front c = (Normal tt, c') →
  run_actions (front ++ back) c = run_actions back c'.
Proof.
  revert c. induction front as [|a front IH]; intros c H; cbn in *.
  - injection H as <-. reflexivity.
  - destruct (a c) as [[u|e] c1]; [apply IH; exact H | discriminate].
Qed.

Lemma do_while_found tbl st found item rest n c c2 :
  tbl !! js_key (Context.state c) = Some st →
  find_rule (matchers st) (pulled_item item c) = (Normal found, c2) →
  StateMachine.do_while tbl (item :: rest) n c =
    after_actions tbl rest (S n)
      (run_actions (match found with
                    | Some r => actions r
                    | None => defaultActions st
                    end) c2).
Proof.
  intros Hst Hfind. cbn [StateMachine.do_while].
  change (Context.state (StateMachine.pull_input (Some item) c))
    with (Context.state c).
  rewrite Hst. fold (pulled_item item c). rewrite Hfind.
  unfold after_actions.
  destruct (run_actions _ c2) as [[u|e] c3]; reflexivity.
Qed.

(** The scan of a rule list whose first matching rule is [r]. *)
Lemma find_rule_first pre r post c c1 c2 :
  find_rule pre c = (Normal None, c1) →
  matcher r c1 = (Normal true, c2) →
  find_rule (pre ++ r :: post) c = (Normal (Some r), c2).
Proof.
  revert c. induction pre as [|q pre IH]; intros c Hpre Hr.
  - cbn in Hpre. injection Hpre as <-. cbn. rewrite Hr. reflexivity.
  - cbn in Hpre |- *. destruct (matcher q c) as [[[|]|e] c'].
    + discriminate.
    + apply IH; assumption.
    + discriminate.
Qed.

(** Rules whose matchers answer false and leave the context alone are
    passed over. *)
Lemma find_rule_all_false pre c :
  Forall (λ q, matcher q c = (Normal false, c)) pre →
  find_rule pre c = (Normal None, c).
Proof.
  induction 1 as [|q pre Hq _ IH]; [reflexivity|].
  cbn. rewrite Hq. exact IH.
Qed.

(** [.on()] appends: the rules of a state are in declaration order. *)
Lemma on_appends_rule h b nm st m acts :
  StateMachineBuilder.currentState b = Some nm →
  read_table h (StateMachineBuilder.states b) !! nm = Some st →
  ∃ h', StateMachineBuilder.on m acts (h, b) = Normal (h', b) ∧
        read_table h' (StateMachineBuilder.states b) !! nm =
          Some (mkState (name st)
                  (matchers st
                     ++ [mkRule (StateMachineBuilder.matcherWrapper b m) acts])
                  (defaultActions st) (endActions st)).
Proof.
  intros Hcur Hst. unfold StateMachineBuilder.on, StateMachineBuilder.update_current.
  cbn [fst snd]. rewrite Hcur, Hst. eexists. split; [reflexivity|].
  unfold read_table in *. rewrite list_lookup_alter_eq.
  destruct (h !! StateMachineBuilder.states b) as [tbl|]; cbn in *.
  - rewrite lookup_alter_eq, Hst. reflexivity.
  - rewrite lookup_empty in Hst. discriminate.
Qed.

(** ** First match wins *)

(** C4.  In any state, for any item: when the rules of the active state
    are [pre ++ r :: post], the matchers of [pre], evaluated in order on
    the context of the pulled item, all answer false and [r]'s matcher
    answers true, then the scan yields [r] and the iteration runs the
    action list of [r] and no other, whatever rules [post] holds (they may
    match too; their matchers are not evaluated). *)
Theorem first_match_wins tbl st pre r post item rest n c c1 c2 :
  tbl !! js_key (Context.state c) = Some st →
  matchers st = pre ++ r :: post →
  find_rule pre (pulled_item item c) = (Normal None, c1) →
  matcher r c1 = (Normal true, c2) →
  find_rule (matchers st) (pulled_item item c) = (Normal (Some r), c2) ∧
  StateMachine.do_while tbl (item :: rest) n c =
    after_actions tbl rest (S n) (run_actions (actions r) c2).
Proof.
  intros Hst Hrules Hpre Hr.
  assert (Hfind : find_rule (matchers st) (pulled_item item c)
                  = (Normal (Some r), c2)).
  { rewrite Hrules. eapply find_rule_first; eassumption. }
  split; [exact Hfind|].
  rewrite (do_while_found _ _ _ _ _ _ _ _ Hst Hfind). reflexivity.
Qed.

Lemma first_match_wins_witness :
  find_rule (matchers twice_state) (pulled_item "x" twice_context)
    = (Normal (Some first_rule), pulled_item "x" twice_context) ∧
  StateMachine.do_while twice_table ["x"] 0 twice_context =
    after_actions twice_table [] 1
      (run_actions (actions first_rule) (pulled_item "x" twice_context)).
Proof.
  apply (first_match_wins twice_table twice_state [] first_rule [second_rule]
           "x" [] 0 twice_context
           (pulled_item "x" twice_context) (pulled_item "x" twice_context));
    reflexivity.
Defined.

(** Only the first rule's token comes out. *)
Example twice_first_only :
  fst (StateMachine.do_while twice_table ["x"] 0 twice_context)
    = Normal (Some (mkToken "first" (VString ""))) ∧
  Context.tokens
    (context (snd (StateMachine.do_while twice_table ["x"] 0 twice_context)))
    = [].
Proof. split; vm_compute; reflexivity. Qed.

(** ** Transitions *)

Lemma transit_chain : built transit = Normal ([transit_table], transit_machine).
Proof. vm_compute. reflexivity. Qed.

(** C1 fails as stated.  [transit_machine] on the input ["x"]: the rule
    matches in state [a], and the call stack afterwards holds [b], the
    target of the transition, not [a]. *)
Lemma transition_not_deferred :
  built transit = Normal ([transit_table], transit_machine) ∧
  (let r := after 1 [transit_table] transit_machine
              (StateMachine.process transit_machine (chars_of "x")) in
   Context.callstack (context r) = Some [Some "b"] ∧
   Context.callstack (context r) ≠ Some [Some "a"]) ∧
  ¬ call_pushes_matched_state
      (pulled_item "x" (Context.set_buffer (VString "") (Context.new (Some "a"))))
      "b" "c".
Proof.
  split; [exact transit_chain|].
  split; [split; [vm_compute; reflexivity | vm_compute; discriminate]|].
  unfold call_pushes_matched_state. vm_compute. discriminate.
Qed.

(** C1 as amended.  A transition is a write of the context's state field,
    done when the action runs.  The rule was chosen in the state that was
    active when the item was pulled, and the actions that follow the
    transition in its list still run, on a context whose state name is
    already the target: a [call] right after it pushes the target.  The
    rules of the new state are looked up from the next item on. *)
Theorem transition_writes_at_once tbl st r front t back item rest n c c2 c3 :
  tbl !! js_key (Context.state c) = Some st →
  find_rule (matchers st) (pulled_item item c) = (Normal (Some r), c2) →
  actions r = front ++ Tokenizer.state t :: back →
  run_actions front c2 = (Normal tt, c3) →
  StateMachine.do_while tbl (item :: rest) n c =
    after_actions tbl rest (S n)
      (run_actions back (Context.changeState (Some t) c3)) ∧
  Context.state (Context.changeState (Some t) c3) = Some t ∧
  ∀ callee,
    Tokenizer.call callee (Context.changeState (Some t) c3) =
      (Normal tt,
       Context.changeState (Some callee)
         (Context.set_callstack
            (Some (default [] (Context.callstack c3) ++ [Some t]))
            (Context.changeState (Some t) c3))).
Proof.
  intros Hst Hfind Hacts Hfront. split; [|split; [reflexivity|]].
  - rewrite (do_while_found _ _ _ _ _ _ _ _ Hst Hfind), Hacts.
    rewrite (run_actions_app _ _ _ _ Hfront). reflexivity.
  - intros callee. reflexivity.
Qed.

Lemma transition_writes_at_once_witness :
  let c := Context.set_buffer (VString "") (Context.new (Some "a")) in
  StateMachine.do_while transit_table ["x"] 0 c =
    after_actions transit_table [] 1
      (run_actions [Tokenizer.call "c"]
         (Context.changeState (Some "b") (pulled_item "x" c))) ∧
  Context.state (Context.changeState (Some "b") (pulled_item "x" c)) = Some "b" ∧
  ∀ callee,
    Tokenizer.call callee (Context.changeState (Some "b") (pulled_item "x" c)) =
      (Normal tt,
       Context.changeState (Some callee)
         (Context.set_callstack
            (Some (default [] (Context.callstack (pulled_item "x" c))
                     ++ [Some "b"]))
            (Context.changeState (Some "b") (pulled_item "x" c)))).
Proof.
  intros c.
  apply (transition_writes_at_once transit_table
           (mkState "a" [transit_rule] [] []) transit_rule []  "b"
           [Tokenizer.call "c"] "x" [] 0 c
           (pulled_item "x" c) (pulled_item "x" c));
    reflexivity.
Defined.

(** ** Empty input *)

(** On an empty input the first pull runs the end-of-input actions of the
    initial state, marks the run finished and returns the head of the queue;
    a finished run returns nothing more, whatever the queue still holds. *)
Lemma empty_input_head_only h m st c1 :
  let c0 := context (StateMachine.process m []) in
  Context.finished c0 = false →
  Context.tokens c0 = [] →
  read_table h (StateMachine.states m) !! js_key (Context.state c0) = Some st →
  run_actions (endActions st) (StateMachine.pull_input None c0)
    = (Normal tt, c1) →
  nth_pull 0 h m (StateMachine.process m []) = Normal (head (Context.tokens c1)) ∧
  ∀ n, nth_pull (1 + n) h m (StateMachine.process m []) = Normal None.
Proof.
  intros c0 Hf Ht Hst Hrun.
  assert (Hnext : StateMachine.next h m (StateMachine.process m []) =
            (Normal (head (Context.tokens c1)),
             mkRun (snd (Context.shift (Context.set_finished true c1))) [] 1)).
  { unfold StateMachine.next. fold c0. rewrite Hf, Ht.
    cbn [pending pulls StateMachine.process StateMachine.do_while].
    change (Context.state (StateMachine.pull_input None c0))
      with (Context.state c0).
    rewrite Hst. rewrite Hrun.
    unfold Context.shift. cbn [Context.tokens Context.set_finished].
    destruct (Context.tokens c1); reflexivity. }
  split.
  - unfold nth_pull, after. cbn [pull snd]. rewrite Hnext. reflexivity.
  - intros n. rewrite nth_pull_add. apply nth_pull_finished.
    unfold after. rewrite pull_S. cbn [pull snd]. rewrite Hnext. cbn [snd context].
    unfold Context.shift. cbn [Context.tokens Context.set_finished].
    destruct (Context.tokens c1); reflexivity.
Qed.

(** C2, what the code does.  [two_at_end] on the empty input: the end rule
    queues the tokens a and b; the first pull returns a, every later pull
    returns the end-of-sequence signal, and b stays in the queue of the
    finished run. *)
Theorem empty_input_second_token_lost :
  built two_at_end = Normal ([two_at_end_table], two_at_end_machine) ∧
  let r := StateMachine.process two_at_end_machine [] in
  nth_pull 0 [two_at_end_table] two_at_end_machine r
    = Normal (Some (mkToken "a" (VString ""))) ∧
  (∀ n, nth_pull (1 + n) [two_at_end_table] two_at_end_machine r = Normal None) ∧
  Context.tokens (context (after 1 [two_at_end_table] two_at_end_machine r))
    = [mkToken "b" (VString "")].
Proof.
  split; [vm_compute; reflexivity|].
  split; [vm_compute; reflexivity|].
  split; [|vm_compute; reflexivity].
  intros n. rewrite nth_pull_add. apply nth_pull_finished.
  vm_compute. reflexivity.
Qed.

(** ** The position counter *)

Lemma accept_keeps_position : keeps_position Tokenizer.accept.
Proof. intros c. reflexivity. Qed.

Lemma state_action_keeps_position nm : keeps_position (Tokenizer.state nm).
Proof. intros c. reflexivity. Qed.

Lemma emit_keeps_position ty : keeps_position (Tokenizer.emit ty).
Proof. intros c. reflexivity. Qed.

Lemma error_keeps_position msg : keeps_position (Tokenizer.error msg).
Proof. intros c. reflexivity. Qed.

Lemma push_keeps_position : keeps_position Tokenizer.push.
Proof. intros c. reflexivity. Qed.

Lemma call_keeps_position nm : keeps_position (Tokenizer.call nm).
Proof. intros c. reflexivity. Qed.

Lemma ret_keeps_position : keeps_position Tokenizer.ret.
Proof.
  intros c. unfold Tokenizer.ret.
  destruct (Context.callstack c) as [[|x st]|]; reflexivity.
Qed.

Lemma pop_keeps_position : keeps_position Tokenizer.pop.
Proof.
  intros c. unfold Tokenizer.pop. destruct (Context.charstack c) as [st|]; [|reflexivity].
  destruct (js_strict_eq _ _); reflexivity.
Qed.

Lemma tokenizer_wrapper_keeps_position m :
  (∀ f, m = MFunction f → keeps_position f) →
  keeps_position (Tokenizer.tokenizer_wrapper m).
Proof.
  intros Hf c. destruct m as [f|re|s]; cbn.
  - apply (Hf f eq_refl).
  - destruct (Context.currentItem c); reflexivity.
  - reflexivity.
Qed.

Lemma run_actions_position acts c :
  Forall keeps_position acts →
  Context.currentPosition (snd (run_actions acts c)) = Context.currentPosition c.
Proof.
  intros H. revert c. induction H as [|a acts Ha _ IH]; intros c; [reflexivity|].
  cbn. specialize (Ha c). destruct (a c) as [[u|e] c1]; cbn in Ha.
  - rewrite IH. exact Ha.
  - exact Ha.
Qed.

Lemma find_rule_position rules c :
  Forall (λ r, keeps_position (matcher r) ∧ Forall keeps_position (actions r))
         rules →
  Context.currentPosition (snd (find_rule rules c)) = Context.currentPosition c ∧
  ∀ r, fst (find_rule rules c) = Normal (Some r) →
       Forall keeps_position (actions r).
Proof.
  intros H. revert c.
  induction H as [|q rules [Hm Ha] _ IH]; intros c.
  - split; [reflexivity|]. cbn. intros r Hr. discriminate.
  - cbn. specialize (Hm c). destruct (matcher q c) as [[[|]|e] c1]; cbn in Hm.
    + split; [exact Hm|]. cbn. intros r Hr. injection Hr as <-. exact Ha.
    + destruct (IH c1) as [IH1 IH2]. split; [rewrite IH1; exact Hm | exact IH2].
    + split; [exact Hm|]. cbn. intros r Hr. discriminate.
Qed.

Lemma shift_position c :
  Context.currentPosition (snd (Context.shift c)) = Context.currentPosition c.
Proof. unfold Context.shift. destruct (Context.tokens c); reflexivity. Qed.

Lemma do_while_position tbl input n c :
  table_keeps_position tbl →
  Context.currentPosition c = Z.of_nat n - 1 →
  position_counts_pulls (snd (StateMachine.do_while tbl input n c)).
Proof.
  intros Htbl. revert n c.
  induction input as [|item rest IH]; intros n c Hc;
    cbn [StateMachine.do_while];
    change (Context.state (StateMachine.pull_input _ c))
      with (Context.state c);
    destruct (tbl !! js_key (Context.state c)) as [st|] eqn:Hst;
    try (unfold position_counts_pulls; cbn; lia).
  - destruct (Htbl _ _ Hst) as (_ & _ & Hend).
    pose proof (run_actions_position (endActions st)
      (StateMachine.pull_input None c) Hend) as Hp.
    destruct (run_actions (endActions st) _) as [[u|e] c2]; cbn in Hp.
    + pose proof (shift_position (Context.set_finished true c2)) as Hs.
      destruct (Context.shift (Context.set_finished true c2)) as [tok c3].
      unfold position_counts_pulls. cbn in *. lia.
    + unfold position_counts_pulls. cbn. lia.
  - destruct (Htbl _ _ Hst) as (Hrules & Hdef & _).
    destruct (find_rule_position (matchers st)
      (StateMachine.pull_input (Some item) c) Hrules) as [Hp Hacts].
    destruct (find_rule (matchers st) _) as [[found|e] c2]; cbn in Hp, Hacts.
    + assert (Hk : Forall keeps_position
                     (match found with
                      | Some r => actions r
                      | None => defaultActions st
                      end)).
      { destruct found as [r|]; [apply Hacts; reflexivity | exact Hdef]. }
      pose proof (run_actions_position _ c2 Hk) as Hq.
      destruct (run_actions _ c2) as [[u|e] c3]; cbn in Hq.
      * destruct (Context.tokens c3) as [|tok q] eqn:Hq3.
        -- apply IH. lia.
        -- pose proof (shift_position c3) as Hs.
           destruct (Context.shift c3) as [tok' c4].
           unfold position_counts_pulls. cbn in *. lia.
      * unfold position_counts_pulls. cbn. lia.
    + unfold position_counts_pulls. cbn. lia.
Qed.

Lemma next_position h m r :
  table_keeps_position (read_table h (StateMachine.states m)) →
  position_counts_pulls r →
  position_counts_pulls (snd (StateMachine.next h m r)).
Proof.
  intros Htbl Hr. unfold StateMachine.next.
  destruct (Context.finished (context r)); [exact Hr|].
  destruct (Context.tokens (context r)) as [|tok q] eqn:Hq.
  - apply do_while_position; assumption.
  - pose proof (shift_position (context r)) as Hs.
    destruct (Context.shift (context r)) as [tok' c'].
    unfold position_counts_pulls in *. cbn in *. lia.
Qed.

(** What the loop takes from the input stream, whatever the table: it
    pulls at least once, the pull that observes the end of the input is
    counted as one, and the items it has not pulled are those the stream
    has not handed out. *)
Lemma do_while_pulls_once tbl pend n c :
  (n < pulls (snd (StateMachine.do_while tbl pend n c)))%nat ∧
  (pend = [] → pulls (snd (StateMachine.do_while tbl pend n c)) = S n).
Proof.
  revert n c. induction pend as [|item rest IH]; intros n c;
    cbn [StateMachine.do_while].
  - destruct (tbl !! _) as [st|]; [|cbn; split; [lia | reflexivity]].
    destruct (run_actions (endActions st) _) as [[u|e] c2];
      [|cbn; split; [lia | reflexivity]].
    destruct (Context.shift _) as [tok c3]. cbn. split; [lia | reflexivity].
  - split; [|discriminate].
    destruct (tbl !! _) as [st|]; [|cbn; lia].
    destruct (find_rule (matchers st) _) as [[found|e] c2]; [|cbn; lia].
    destruct (run_actions _ c2) as [[u|e] c3]; [|cbn; lia].
    destruct (Context.tokens c3) as [|tok q].
    + destruct (IH (S n) c3) as [Hlt _]. lia.
    + destruct (Context.shift c3) as [tok' c4]. cbn. lia.
Qed.

Lemma do_while_consumes tbl (input : list string) pend n c :
  pend = drop n input →
  pending (snd (StateMachine.do_while tbl pend n c))
    = drop (pulls (snd (StateMachine.do_while tbl pend n c))) input.
Proof.
  revert n c. induction pend as [|item rest IH]; intros n c Hpend;
    cbn [StateMachine.do_while].
  - assert (Hend : [] = drop (S n) input).
    { symmetry. apply drop_ge.
      destruct (decide (length input ≤ n)%nat) as [Hle|Hgt]; [lia|].
      exfalso. assert (Hl : length (drop n input) = 0%nat)
        by (rewrite <- Hpend; reflexivity).
      rewrite length_drop in Hl. lia. }
    destruct (tbl !! _) as [st|]; [|exact Hend].
    destruct (run_actions (endActions st) _) as [[u|e] c2]; [|exact Hend].
    destruct (Context.shift _) as [tok c3]. exact Hend.
  - assert (Hrest : rest = drop (S n) input).
    { assert (Hlt : (n < length input)%nat).
      { destruct (decide (n < length input)%nat) as [Hlt|Hge]; [exact Hlt|].
        rewrite drop_ge in Hpend by lia. discriminate. }
      destruct (lookup_lt_is_Some_2 input n Hlt) as [x Hx].
      rewrite (drop_S _ _ _ Hx) in Hpend. injection Hpend as _ ->. reflexivity. }
    destruct (tbl !! _) as [st|]; [|exact Hrest].
    destruct (find_rule (matchers st) _) as [[found|e] c2]; [|exact Hrest].
    destruct (run_actions _ c2) as [[u|e] c3]; [|exact Hrest].
    destruct (Context.tokens c3) as [|tok q].
    + apply IH. exact Hrest.
    + destruct (Context.shift c3) as [tok' c4]. exact Hrest.
Qed.

Lemma next_consumes h m (input : list string) r :
  pending r = drop (pulls r) input →
  pending (snd (StateMachine.next h m r))
    = drop (pulls (snd (StateMachine.next h m r))) input.
Proof.
  intros Hr. unfold StateMachine.next.
  destruct (Context.finished (context r)); [exact Hr|].
  destruct (Context.tokens (context r)) as [|tok q] eqn:Hq.
  - apply do_while_consumes. exact Hr.
  - unfold Context.shift. rewrite Hq. exact Hr.
Qed.

Lemma after_S_last k h m r :
  after (S k) h m r = snd (StateMachine.next h m (after k h m r)).
Proof.
  rewrite <- Nat.add_1_r, after_add. unfold after at 1. cbn [pull].
  destruct (StateMachine.next h m (after k h m r)). reflexivity.
Qed.

(** C8.  In a run of a machine whose actions, matchers and initializer do
    not write the counter themselves: the counter is -1 before the first
    input pull, each pull (the one that observes the end of the input
    included) sets it to one more than it was, so that the first item has
    position 0, and after any number of calls of [next] it is the number of
    input pulls made so far less one, whatever was queued or returned.
    The pulls are those of the input: the stream has handed out exactly
    the first [pulls] items; a call of [next] that finds the queue empty
    pulls at least once, and once exactly when the input is exhausted; a
    call on a finished run or on a non-empty queue pulls nothing and
    leaves the counter as it is. *)
Theorem position_is_pull_count h m input k :
  table_keeps_position (read_table h (StateMachine.states m)) →
  (∀ c, Context.currentPosition (StateMachine.contextInitializer m c)
        = Context.currentPosition c) →
  Context.currentPosition (context (StateMachine.process m input)) = -1 ∧
  pulls (StateMachine.process m input) = 0%nat ∧
  (∀ item c, Context.currentPosition (StateMachine.pull_input item c)
             = Context.currentPosition c + 1) ∧
  position_counts_pulls (after k h m (StateMachine.process m input)) ∧
  (let r := after k h m (StateMachine.process m input) in
   let r' := after (S k) h m (StateMachine.process m input) in
   pending r = drop (pulls r) input ∧
   (Context.finished (context r) = false → Context.tokens (context r) = [] →
      (pulls r < pulls r')%nat ∧ (pending r = [] → pulls r' = S (pulls r))) ∧
   (Context.finished (context r) = true ∨ Context.tokens (context r) ≠ [] →
      pulls r' = pulls r ∧ pending r' = pending r ∧
      Context.currentPosition (context r')
        = Context.currentPosition (context r))).
Proof.
  intros Htbl Hinit.
  assert (H0 : Context.currentPosition
                 (context (StateMachine.process m input)) = -1).
  { cbn. rewrite Hinit. reflexivity. }
  split; [exact H0|]. split; [reflexivity|]. split; [reflexivity|].
  assert (Hgen : ∀ j r, position_counts_pulls r →
                        position_counts_pulls (after j h m r)).
  { intros j. induction j as [|j IH]; intros r Hr; [exact Hr|].
    rewrite after_S. apply IH, next_position; assumption. }
  assert (Hpos : ∀ j, position_counts_pulls
                        (after j h m (StateMachine.process m input))).
  { intros j. apply Hgen. unfold position_counts_pulls. rewrite H0. reflexivity. }
  split; [apply Hpos|]. cbv zeta.
  assert (Hpend : ∀ j r, pending r = drop (pulls r) input →
                         pending (after j h m r)
                           = drop (pulls (after j h m r)) input).
  { intros j. induction j as [|j IH]; intros r Hr; [exact Hr|].
    rewrite after_S. apply IH, next_consumes. exact Hr. }
  split; [apply Hpend; reflexivity|].
  rewrite after_S_last.
  set (r := after k h m (StateMachine.process m input)).
  split.
  - intros Hf Ht. unfold StateMachine.next. rewrite Hf, Ht.
    apply do_while_pulls_once.
  - intros Hcase. unfold StateMachine.next.
    destruct (Context.finished (context r)) eqn:Hf; [auto|].
    destruct Hcase as [Hcase|Hcase]; [discriminate|].
    destruct (Context.tokens (context r)) as [|tok q] eqn:Hq; [contradiction|].
    unfold Context.shift. rewrite Hq. auto.
Qed.

(** Discharges [keeps_position] goals over rules made of the vocabulary. *)
Ltac vocabulary_keeps_position :=
  repeat first
    [ apply Forall_nil_2
    | apply Forall_cons_2
    | apply accept_keeps_position
    | apply state_action_keeps_position
    | apply emit_keeps_position
    | apply error_keeps_position
    | apply push_keeps_position
    | apply call_keeps_position
    | apply ret_keeps_position
    | apply pop_keeps_position
    | apply tokenizer_wrapper_keeps_position; intros ? ?; discriminate
    | split ].

Lemma A_table_keeps_position : table_keeps_position A_table.
Proof.
  unfold table_keeps_position, A_table.
  repeat apply map_Forall_insert_2; [| |apply map_Forall_empty];
    unfold state_keeps_position; cbn [matchers defaultActions endActions];
    vocabulary_keeps_position.
Qed.

Lemma position_is_pull_count_witness :
  Context.currentPosition
    (context (StateMachine.process tag_machine (chars_of "a[b]c"))) = -1 ∧
  pulls (StateMachine.process tag_machine (chars_of "a[b]c")) = 0%nat ∧
  (∀ item c, Context.currentPosition (StateMachine.pull_input item c)
             = Context.currentPosition c + 1) ∧
  position_counts_pulls
    (after 2 [A_table] tag_machine
       (StateMachine.process tag_machine (chars_of "a[b]c"))) ∧
  (let r := after 2 [A_table] tag_machine
              (StateMachine.process tag_machine (chars_of "a[b]c")) in
   let r' := after 3 [A_table] tag_machine
               (StateMachine.process tag_machine (chars_of "a[b]c")) in
   pending r = drop (pulls r) (chars_of "a[b]c") ∧
   (Context.finished (context r) = false → Context.tokens (context r) = [] →
      (pulls r < pulls r')%nat ∧ (pending r = [] → pulls r' = S (pulls r))) ∧
   (Context.finished (context r) = true ∨ Context.tokens (context r) ≠ [] →
      pulls r' = pulls r ∧ pending r' = pending r ∧
      Context.currentPosition (context r')
        = Context.currentPosition (context r))).
Proof.
  apply (position_is_pull_count [A_table] tag_machine (chars_of "a[b]c") 2).
  - exact A_table_keeps_position.
  - intros c. reflexivity.
Defined.

(** In that run the second token comes out after four input pulls, with the
    counter at 3, the index of the closing bracket. *)
Example position_after_two_tokens :
  let r := after 2 [A_table] tag_machine
             (StateMachine.process tag_machine (chars_of "a[b]c")) in
  pulls r = 4%nat ∧ Context.currentPosition (context r) = 3 ∧
  Context.currentItem (context r) = Some "]".
Proof. vm_compute. auto. Qed.

(** ** The built machine and the builder *)

(** C3, what the code does.  The machine built by the chain of
    [Scenario.A] reads the table the builder goes on writing.  On the input
    ["a"] it returns the token text "a"; once the builder, after [build],
    has reopened [text] and replaced its end rule, the same machine returns
    nothing; with the fallback replaced as well the end rule emits an
    empty token; a rule added to [text] fires in it; a state declared later
    is in its table; and a run that is under way takes up a rule added to
    [color] between two pulls. *)
Theorem build_shares_the_table :
  built Scenario.A = Normal ([A_table], tag_machine) ∧
  fst (pull 2 [A_table] tag_machine
         (StateMachine.process tag_machine (chars_of "a")))
    = [Normal (Some (mkToken "text" (VString "a"))); Normal None] ∧
  (∃ h b,
     Scenario.A |> StateMachineBuilder.state "text"
                |> StateMachineBuilder.onEnd [] = Normal (h, b) ∧
     fst (pull 2 h tag_machine (StateMachine.process tag_machine (chars_of "a")))
       = [Normal None; Normal None]) ∧
  (∃ h b,
     Scenario.A |> StateMachineBuilder.state "text"
                |> StateMachineBuilder.else_ [] = Normal (h, b) ∧
     fst (pull 2 h tag_machine (StateMachine.process tag_machine (chars_of "a")))
       = [Normal (Some (mkToken "text" (VString ""))); Normal None]) ∧
  (∃ h b,
     Scenario.A |> StateMachineBuilder.state "text"
                |> StateMachineBuilder.on (MLiteral "a") [Tokenizer.emit "seen"]
       = Normal (h, b) ∧
     fst (pull 2 h tag_machine (StateMachine.process tag_machine (chars_of "a")))
       = [Normal (Some (mkToken "seen" (VString "")));
          Normal (Some (mkToken "text" (VString "")))]) ∧
  (∃ h b,
     Scenario.A |> StateMachineBuilder.state "extra" = Normal (h, b) ∧
     A_table !! "extra" = None ∧
     read_table h (StateMachine.states tag_machine) !! "extra"
       = Some (mkState "extra" [] [] [])) ∧
  (∃ h b,
     Scenario.A |> StateMachineBuilder.on (MLiteral "b") [Tokenizer.emit "late"]
       = Normal (h, b) ∧
     let r1 := after 1 [A_table] tag_machine
                 (StateMachine.process tag_machine (chars_of "a[b]c")) in
     fst (StateMachine.next [A_table] tag_machine r1)
       = Normal (Some (mkToken "color" (VString "b"))) ∧
     fst (StateMachine.next h tag_machine r1)
       = Normal (Some (mkToken "late" (VString "")))).
Proof.
  split; [unfold built; rewrite Scenario_A_chain; reflexivity|].
  split; [vm_compute; reflexivity|].
  rewrite Scenario_A_chain.
  repeat split; eexists _, _; (split; [reflexivity|]);
    repeat split; vm_compute; reflexivity.
Qed.

(** ** The initial state *)

(** Once [defaultState] holds a non-empty name no call writes it. *)
Lemma apply_call_defaultState k hb hb' :
  js_truthy (StateMachineBuilder.defaultState (snd hb)) = true →
  apply_call k hb = Normal hb' →
  StateMachineBuilder.defaultState (snd hb')
    = StateMachineBuilder.defaultState (snd hb).
Proof.
  destruct hb as [h b]. intros Ht Hk.
  destruct k; cbn in Hk;
    unfold StateMachineBuilder.state, StateMachineBuilder.on,
      StateMachineBuilder.onEnd, StateMachineBuilder.else_,
      StateMachineBuilder.update_current in Hk; cbn in *.
  - rewrite Ht in Hk. injection Hk as <-. reflexivity.
  - destruct (StateMachineBuilder.currentState b); [|discriminate].
    destruct (_ !! _); [|discriminate].
    injection Hk as <-. reflexivity.
  - destruct (StateMachineBuilder.currentState b); [|discriminate].
    injection Hk as <-. reflexivity.
  - destruct (StateMachineBuilder.currentState b); [|discriminate].
    injection Hk as <-. reflexivity.
  - injection Hk as <-. reflexivity.
  - injection Hk as <-. reflexivity.
Qed.

Lemma apply_calls_defaultState ks hb hb' :
  js_truthy (StateMachineBuilder.defaultState (snd hb)) = true →
  apply_calls ks hb = Normal hb' →
  StateMachineBuilder.defaultState (snd hb')
    = StateMachineBuilder.defaultState (snd hb).
Proof.
  revert hb. induction ks as [|k ks IH]; intros hb Ht Hks; cbn in Hks.
  - injection Hks as <-. reflexivity.
  - destruct (apply_call k hb) as [hb1|e] eqn:Hk; [|discriminate].
    cbn in Hks. pose proof (apply_call_defaultState _ _ _ Ht Hk) as H1.
    rewrite <- H1. apply IH; [rewrite H1; exact Ht | exact Hks].
Qed.

(** When the first name declared on a new builder is not the empty string,
    it is the initial state of the machine built after any further calls. *)
Lemma state_on_new h nm :
  ∃ h1 b1,
    StateMachineBuilder.state nm (StateMachineBuilder.new h) = Normal (h1, b1) ∧
    StateMachineBuilder.defaultState b1 = Some nm.
Proof. eexists _, _. split; reflexivity. Qed.

Lemma first_nonempty_state_is_initial h nm ks hb :
  nm ≠ "" →
  apply_calls (CallState nm :: ks) (StateMachineBuilder.new h) = Normal hb →
  StateMachine.defaultState (StateMachineBuilder.build (snd hb)) = Some nm.
Proof.
  intros Hnm Hks. cbn [apply_calls apply_call] in Hks.
  destruct (state_on_new h nm) as (h1 & b1 & H1 & Hd).
  rewrite H1 in Hks. cbn [and_then] in Hks.
  change (StateMachine.defaultState (StateMachineBuilder.build (snd hb)))
    with (StateMachineBuilder.defaultState (snd hb)).
  rewrite <- Hd.
  apply (apply_calls_defaultState ks (h1, b1) hb); [|exact Hks].
  cbn [snd]. rewrite Hd. cbn [js_truthy].
  apply negb_true_iff, String.eqb_neq. exact Hnm.
Qed.

(** C9, what the code does.  On a new builder, [state("")] followed by
    [state("b")]: the first call stores the empty name as [defaultState],
    the test [!this.defaultState] of the second call takes it for unset,
    and the machine built starts in [b], the second name declared. *)
Theorem empty_first_name_is_replaced :
  ∃ h1 b1 h2 b2,
    StateMachineBuilder.state "" (StateMachineBuilder.new []) = Normal (h1, b1) ∧
    StateMachineBuilder.defaultState b1 = Some "" ∧
    StateMachineBuilder.state "b" (h1, b1) = Normal (h2, b2) ∧
    StateMachine.defaultState (StateMachineBuilder.build b2) = Some "b" ∧
    is_Some (read_table h2 (StateMachineBuilder.states b2) !! "").
Proof.
  eexists _, _, _, _.
  split; [reflexivity|]. split; [reflexivity|].
  split; [reflexivity|]. split; [reflexivity|].
  vm_compute. eauto.
Qed.

(** * Further properties of the code *)

(** ** [call] and [ret] *)

Lemma ret_snoc c st y :
  Context.callstack c = Some (st ++ [y]) →
  Tokenizer.ret c =
    (Normal tt, Context.changeState y (Context.set_callstack (Some st) c)).
Proof.
  intros H. unfold Tokenizer.ret. rewrite H.
  rewrite top_snoc, removelast_last. destruct st; reflexivity.
Qed.

(** X1.  Whatever happened to the context since a [call], as long as the
    call stack is as the call left it, [ret] puts back the state name that
    was active when the call ran and removes the entry the call pushed. *)
Theorem ret_returns_to_caller c t c2 :
  Context.callstack c2 = Context.callstack (snd (Tokenizer.call t c)) →
  Tokenizer.ret c2 =
    (Normal tt,
     Context.changeState (Context.state c)
       (Context.set_callstack (Some (default [] (Context.callstack c))) c2)).
Proof. intros H. apply ret_snoc. rewrite H. reflexivity. Qed.

Lemma ret_returns_to_caller_witness :
  let c := Context.set_buffer (VString "") (Context.new (Some "text")) in
  let c2 := Tokenizer.accept (Context.set_currentItem (Some "x")
                                (snd (Tokenizer.call "entity" c))) in
  Tokenizer.ret (snd c2) =
    (Normal tt,
     Context.changeState (Some "text")
       (Context.set_callstack (Some []) (snd c2))).
Proof.
  intros c c2.
  apply (ret_returns_to_caller c "entity" (snd c2)). reflexivity.
Defined.

Lemma rets_unwind base s frames c :
  Context.callstack c = Some (base ++ s :: frames) →
  run_actions (replicate (S (length frames)) Tokenizer.ret) c =
    (Normal tt, Context.changeState s (Context.set_callstack (Some base) c)).
Proof.
  revert c. induction frames as [|y frames IH] using rev_ind; intros c H.
  - cbn [length replicate run_actions].
    rewrite (ret_snoc c base s H). reflexivity.
  - rewrite length_app, Nat.add_1_r.
    change (run_actions (replicate (S (S (length frames))) Tokenizer.ret) c)
      with (match Tokenizer.ret c with
            | (Normal _, c') =>
                run_actions (replicate (S (length frames)) Tokenizer.ret) c'
            | (Throw e, c') => (Throw e, c')
            end).
    rewrite (ret_snoc c (base ++ s :: frames) y)
      by (rewrite H, <- app_assoc; reflexivity).
    rewrite IH by reflexivity. destruct c; reflexivity.
Qed.

(** X2.  With frames on the call stack, as many [ret]s as there are frames
    above and including [s] end in the state [s], the frame pushed first
    among them, with the stack cut back to what was below it. *)
Theorem rets_unwind_nested_calls base s frames c :
  Context.callstack c = Some (base ++ s :: frames) →
  run_actions (replicate (S (length frames)) Tokenizer.ret) c =
    (Normal tt, Context.changeState s (Context.set_callstack (Some base) c)).
Proof. apply rets_unwind. Qed.

Lemma rets_unwind_nested_calls_witness :
  let c := Context.mk (Some "entity") (Some ";") 7 [] false (VString "lt")
             None (Some [Some "text"; Some "attribute_value"]) in
  run_actions [Tokenizer.ret; Tokenizer.ret] c =
    (Normal tt, Context.changeState (Some "text")
                  (Context.set_callstack (Some []) c)).
Proof.
  intros c.
  apply (rets_unwind_nested_calls [] (Some "text") [Some "attribute_value"] c).
  reflexivity.
Defined.

(** X3.  One [ret] more than there are frames throws: the error names the
    state reached by the returns before it, and the context is left there,
    with an empty call stack. *)
Theorem ret_one_too_many_throws frames c :
  default [] (Context.callstack c) = frames →
  ∃ c',
    run_actions (replicate (S (length frames)) Tokenizer.ret) c =
      (Throw (Error ("Can't return from state '"
                       +:+ js_to_string (js_of_item (Context.state c'))
                       +:+ "'; callstack empty")), c') ∧
    default [] (Context.callstack c') = [] ∧
    Context.state c' = default (Context.state c) (head frames).
Proof.
  intros H. destruct frames as [|s frames].
  - exists c. cbn [length replicate run_actions].
    unfold Tokenizer.ret.
    destruct (Context.callstack c) as [[|x st]|]; try discriminate;
      repeat split; reflexivity.
  - destruct (Context.callstack c) as [st|] eqn:Hst; [|discriminate].
    cbn in H. subst st.
    exists (Context.changeState s (Context.set_callstack (Some []) c)).
    cbn [length]. rewrite (replicate_S_end (S (length frames))).
    rewrite (run_actions_app _ _ c
               (Context.changeState s (Context.set_callstack (Some []) c)))
      by (apply (rets_unwind [] s frames c Hst)).
    repeat split; reflexivity.
Qed.

Lemma ret_one_too_many_throws_witness :
  ∃ c',
    run_actions (replicate 1 Tokenizer.ret)
      (Context.set_buffer (VString "") (Context.new (Some "text"))) =
      (Throw (Error ("Can't return from state '"
                       +:+ js_to_string (js_of_item (Context.state c'))
                       +:+ "'; callstack empty")), c') ∧
    default [] (Context.callstack c') = [] ∧
    Context.state c' = Some "text".
Proof.
  apply (ret_one_too_many_throws []
           (Context.set_buffer (VString "") (Context.new (Some "text")))).
  reflexivity.
Defined.

(** ** Throws inside an action list *)

(** The first action that throws ends the list: what ran before it stays
    done, what follows it does not run. *)
Lemma run_actions_throw (front : list Action) (a : Action) (back : list Action)
    c c1 e c2 :
  run_actions front c = (Normal tt, c1) →
  a c1 = (Throw e, c2) →
  run_actions (front ++ a :: back) c = (Throw e, c2).
Proof.
  intros Hfront Ha. rewrite (run_actions_app _ _ _ _ Hfront).
  cbn. rewrite Ha. reflexivity.
Qed.

(** X4.  When the rule chosen for an item runs [error] after other
    actions, the pull throws with the context as those actions left it:
    the tokens they queued and the buffer are kept, the actions after the
    [error] do not run, the run is not marked finished, and if a token was
    queued the next call of [next] returns it. *)
Theorem abort_keeps_queue tbl st r front msg back item rest n c c2 c3 :
  tbl !! js_key (Context.state c) = Some st →
  find_rule (matchers st) (pulled_item item c) = (Normal (Some r), c2) →
  actions r = front ++ Tokenizer.error msg :: back →
  run_actions front c2 = (Normal tt, c3) →
  StateMachine.do_while tbl (item :: rest) n c =
    (Throw (Error (Tokenizer.error_message msg c3)), mkRun c3 rest (S n)) ∧
  ∀ h m tok q,
    Context.tokens c3 = tok :: q →
    Context.finished c3 = false →
    StateMachine.next h m (mkRun c3 rest (S n)) =
      (Normal (Some tok), mkRun (Context.set_tokens q c3) rest (S n)).
Proof.
  intros Hst Hfind Hacts Hfront. split.
  - rewrite (do_while_found _ _ _ _ _ _ _ _ Hst Hfind), Hacts.
    rewrite (run_actions_throw front (Tokenizer.error msg) back c2 c3
               (Error (Tokenizer.error_message msg c3)) c3 Hfront eq_refl).
    reflexivity.
  - intros h m tok q Hq Hf. unfold StateMachine.next, Context.shift.
    cbn [context pending pulls]. rewrite Hf, Hq. reflexivity.
Qed.

Lemma abort_keeps_queue_witness :
  let c := Context.set_buffer (VString "ab") (Context.new (Some "s")) in
  let c3 := snd (Tokenizer.emit "text" (pulled_item "!" c)) in
  StateMachine.do_while emit_then_abort_table ["!"; "c"] 2 c =
    (Throw (Error (Tokenizer.error_message "Bang" c3)), mkRun c3 ["c"] 3) ∧
  ∀ h m tok q,
    Context.tokens c3 = tok :: q →
    Context.finished c3 = false →
    StateMachine.next h m (mkRun c3 ["c"] 3) =
      (Normal (Some tok), mkRun (Context.set_tokens q c3) ["c"] 3).
Proof.
  intros c c3.
  apply (abort_keeps_queue emit_then_abort_table
           (mkState "s" [emit_then_abort_rule] [Tokenizer.accept] [])
           emit_then_abort_rule [Tokenizer.emit "text"] "Bang"
           [Tokenizer.emit "never"] "!" ["c"] 2 c (pulled_item "!" c) c3);
    reflexivity.
Defined.

(** ** States that are not declared *)




(** ** Items no rule takes *)

(** X6.  In a state without fallback actions, an item that no rule
    matches is passed over: nothing is queued or thrown, and the loop goes
    on with the next item from a context that differs only in the current
    item and the position. *)
Theorem unmatched_item_is_skipped tbl st item rest n c :
  tbl !! js_key (Context.state c) = Some st →
  Forall (λ q, matcher q (pulled_item item c)
               = (Normal false, pulled_item item c)) (matchers st) →
  defaultActions st = [] →
  Context.tokens c = [] →
  StateMachine.do_while tbl (item :: rest) n c =
    StateMachine.do_while tbl rest (S n) (pulled_item item c).
Proof.
  intros Hst Hno Hdef Htok.
  rewrite (do_while_found tbl st None item rest n c (pulled_item item c) Hst)
    by (apply find_rule_all_false; exact Hno).
  rewrite Hdef. cbn [run_actions after_actions].
  change (Context.tokens (pulled_item item c)) with (Context.tokens c).
  rewrite Htok. reflexivity.
Qed.

Lemma unmatched_item_is_skipped_witness :
  StateMachine.do_while transit_table ["y"; "x"] 0
      (Context.set_buffer (VString "") (Context.new (Some "a"))) =
    StateMachine.do_while transit_table ["x"] 1
      (pulled_item "y" (Context.set_buffer (VString "") (Context.new (Some "a")))).
Proof.
  apply (unmatched_item_is_skipped transit_table
           (mkState "a" [transit_rule] [] []) "y" ["x"] 0
           (Context.set_buffer (VString "") (Context.new (Some "a")))).
  - reflexivity.
  - repeat constructor.
  - reflexivity.
  - reflexivity.
Defined.

(** ** The token queue *)

(** X7.  Tokens queued in a run that is not finished come out one per
    call of [next], in the order they were queued, and those calls read no
    input and run no action. *)
Theorem queued_tokens_drain_in_order h m r :
  Context.finished (context r) = false →
  fst (pull (length (Context.tokens (context r))) h m r)
    = map (λ tok, Normal (Some tok)) (Context.tokens (context r)) ∧
  after (length (Context.tokens (context r))) h m r
    = mkRun (Context.set_tokens [] (context r)) (pending r) (pulls r).
Proof.
  remember (Context.tokens (context r)) as q eqn:Hq.
  revert r Hq. induction q as [|tok q IH]; intros r Hq Hf.
  - split; [reflexivity|]. unfold after. cbn [pull snd].
    destruct r as [c p n]. destruct c. cbn in Hq. subst. reflexivity.
  - assert (Hnext : StateMachine.next h m r =
              (Normal (Some tok),
               mkRun (Context.set_tokens q (context r)) (pending r) (pulls r))).
    { unfold StateMachine.next, Context.shift. rewrite Hf, <- Hq. reflexivity. }
    cbn [length]. rewrite pull_S, after_S, Hnext. cbn [fst snd].
    destruct (IH (mkRun (Context.set_tokens q (context r)) (pending r) (pulls r)))
      as [IH1 IH2]; [reflexivity | exact Hf |].
    rewrite IH1, IH2. split; reflexivity.
Qed.

Lemma queued_tokens_drain_in_order_witness :
  let r := mkRun (Context.mk (Some "text") (Some "]") 4
                    [mkToken "text" (VString "ab"); mkToken "default_color" (VString "")]
                    false (VString "") None None)
                 (chars_of "cd") 5 in
  fst (pull 2 [A_table] tag_machine r)
    = [Normal (Some (mkToken "text" (VString "ab")));
       Normal (Some (mkToken "default_color" (VString "")))] ∧
  after 2 [A_table] tag_machine r
    = mkRun (Context.set_tokens [] (context r)) (pending r) (pulls r).
Proof.
  intros r.
  apply (queued_tokens_drain_in_order [A_table] tag_machine r). reflexivity.
Defined.

(** ** The end of the input *)



(** ** The builder and its table *)

Lemma read_table_alter h l g :
  (l < length h)%nat → read_table (alter g l h) l = g (read_table h l).
Proof.
  intros Hl. unfold read_table. rewrite list_lookup_alter_eq.
  destruct (lookup_lt_is_Some_2 h l Hl) as [t Ht]. rewrite Ht. reflexivity.
Qed.

Lemma read_table_insert h l (t : StateTable) :
  (l < length h)%nat → read_table (<[l := t]> h) l = t.
Proof.
  intros Hl. unfold read_table. rewrite list_lookup_insert_eq by exact Hl.
  reflexivity.
Qed.

(** A normal [on] is the update of the open state object. *)
Lemma on_normal m acts hb hb' :
  StateMachineBuilder.on m acts hb = Normal hb' →
  StateMachineBuilder.update_current
    (λ st, mkState (name st)
             (matchers st
                ++ [mkRule (StateMachineBuilder.matcherWrapper (snd hb) m) acts])
             (defaultActions st) (endActions st)) hb = Normal hb'.
Proof.
  unfold StateMachineBuilder.on.
  destruct (StateMachineBuilder.currentState (snd hb)); [|discriminate].
  destruct (read_table _ _ !! _); [|discriminate]. intros H. exact H.
Qed.

Lemma update_current_wf f hb hb' :
  (∀ st, name (f st) = name st) →
  builder_wf hb →
  StateMachineBuilder.update_current f hb = Normal hb' →
  builder_wf hb'.
Proof.
  destruct hb as [h b]. intros Hf (Hl & Hname & Hcur) Hk.
  cbn [fst snd] in *. unfold StateMachineBuilder.update_current in Hk.
  destruct (StateMachineBuilder.currentState b) as [nm|] eqn:Hc; [|discriminate].
  injection Hk as <-. unfold builder_wf. cbn [fst snd].
  rewrite length_alter, read_table_alter by exact Hl.
  split; [exact Hl|]. split.
  - intros nm' st. rewrite lookup_alter. case_decide as Hd.
    + subst nm'.
      destruct (read_table h (StateMachineBuilder.states b) !! nm) as [st0|] eqn:E;
        cbn; [|discriminate].
      intros [= <-]. destruct (Hname nm st0 E) as [H1 H2].
      split; [rewrite Hf; exact H1 | exact H2].
    + apply Hname.
  - intros nm' Hnm'. rewrite Hc in Hnm'. specialize (Hcur nm' Hnm').
    rewrite lookup_alter. case_decide as Hd; [|exact Hcur].
    subst nm'. destruct (object_prototype_member nm).
    + rewrite Hcur. reflexivity.
    + destruct Hcur as [x Hx]. rewrite Hx. cbn. eauto.
Qed.

Lemma apply_call_wf k hb hb' :
  builder_wf hb → apply_call k hb = Normal hb' → builder_wf hb'.
Proof.
  intros Hwf Hk. destruct k; cbn [apply_call] in Hk.
  - destruct hb as [h b]. destruct Hwf as (Hl & Hname & Hcur).
    cbn [fst snd] in *. unfold StateMachineBuilder.state in Hk.
    injection Hk as <-. unfold builder_wf.
    cbn [fst snd StateMachineBuilder.states StateMachineBuilder.currentState].
    destruct (read_table h (StateMachineBuilder.states b) !! nm) as [st|] eqn:Hnm.
    + split; [exact Hl|]. split; [exact Hname|].
      intros nm' [= <-]. rewrite (proj2 (Hname nm st Hnm)), Hnm. eauto.
    + destruct (object_prototype_member nm) eqn:Hin.
      * split; [exact Hl|]. split; [exact Hname|].
        intros nm' [= <-]. rewrite Hin. exact Hnm.
      * rewrite length_insert, read_table_insert by exact Hl.
        split; [exact Hl|]. split.
        -- intros nm' st. rewrite lookup_insert. case_decide as Hd.
           ++ intros [= <-]. subst nm'. split; [reflexivity | exact Hin].
           ++ apply Hname.
        -- intros nm' [= <-]. rewrite Hin, lookup_insert_eq. eauto.
  - eapply update_current_wf; [|exact Hwf|apply on_normal; exact Hk]. reflexivity.
  - eapply update_current_wf; [|exact Hwf|exact Hk]. reflexivity.
  - eapply update_current_wf; [|exact Hwf|exact Hk]. reflexivity.
  - destruct hb as [h b]. cbn in Hk. injection Hk as <-. exact Hwf.
  - destruct hb as [h b]. cbn in Hk. injection Hk as <-. exact Hwf.
Qed.

Lemma new_builder_table h :
  read_table (fst (StateMachineBuilder.new h))
    (StateMachineBuilder.states (snd (StateMachineBuilder.new h))) = ∅.
Proof.
  unfold StateMachineBuilder.new, read_table.
  cbn [fst snd StateMachineBuilder.states].
  rewrite lookup_app_r by lia. rewrite Nat.sub_diag. reflexivity.
Qed.

Lemma new_builder_allocated h :
  (StateMachineBuilder.states (snd (StateMachineBuilder.new h))
   < length (fst (StateMachineBuilder.new h)))%nat.
Proof.
  unfold StateMachineBuilder.new. cbn [fst snd StateMachineBuilder.states].
  rewrite length_app. cbn. lia.
Qed.

Lemma new_builder_wf h : builder_wf (StateMachineBuilder.new h).
Proof.
  unfold builder_wf. rewrite new_builder_table.
  split; [apply new_builder_allocated|]. split.
  - intros nm st. rewrite lookup_empty. discriminate.
  - intros nm. discriminate.
Qed.

(** X9.  After any chain of calls on a new builder that did not throw and
    that opened no state under [__proto__], the builder's table is
    allocated, every state object in it is stored under its own [name], no
    state is stored under the name of a member of [Object.prototype] (for
    such a name, ["toString"] or ["constructor"] say, [state] finds the
    inherited member and stores nothing), and the open state is in the
    table exactly when it was not opened under such a name. *)
Theorem builder_table_invariant ks h hb :
  Forall leaves_object_prototype ks →
  apply_calls ks (StateMachineBuilder.new h) = Normal hb → builder_wf hb.
Proof.
  intros _.
  generalize (new_builder_wf h). generalize (StateMachineBuilder.new h).
  induction ks as [|k ks IH]; intros hb0 Hwf Hks; cbn in Hks.
  - injection Hks as <-. exact Hwf.
  - destruct (apply_call k hb0) as [hb1|e] eqn:Hk; [|discriminate].
    cbn in Hks. apply (IH hb1); [|exact Hks].
    eapply apply_call_wf; eassumption.
Qed.

Lemma builder_table_invariant_witness :
  builder_wf
    ([ {[ "text" := mkState "text" [] [] [Tokenizer.emit "text"] ]} ],
     StateMachineBuilder.mk 0%nat (Some "toString") (Some "text")
       StateMachineBuilder.default_wrapper (λ c, c)).
Proof.
  apply (builder_table_invariant
           [CallState "text"; CallOnEnd [Tokenizer.emit "text"];
            CallState "toString"; CallOnEnd []] []).
  - repeat constructor; cbn; discriminate.
  - vm_compute. reflexivity.
Defined.

Lemma state_opens nm hb :
  (StateMachineBuilder.states (snd hb) < length (fst hb))%nat →
  object_prototype_member nm = false →
  ∃ hb', StateMachineBuilder.state nm hb = Normal hb' ∧ state_object_open hb'.
Proof.
  destruct hb as [h b]. cbn [fst snd]. intros Hl Hplain.
  unfold StateMachineBuilder.state. eexists. split; [reflexivity|].
  unfold state_object_open.
  cbn [fst snd StateMachineBuilder.states StateMachineBuilder.currentState].
  rewrite Hplain.
  destruct (read_table h (StateMachineBuilder.states b) !! nm) as [st|] eqn:Hnm.
  - split; [exact Hl|]. exists nm. rewrite Hnm. eauto.
  - rewrite length_insert, read_table_insert by exact Hl.
    split; [exact Hl|]. exists nm. rewrite lookup_insert_eq. eauto.
Qed.

Lemma update_current_opened f hb :
  state_object_open hb →
  ∃ hb', StateMachineBuilder.update_current f hb = Normal hb' ∧
         state_object_open hb'.
Proof.
  destruct hb as [h b]. cbn [fst snd]. intros (Hl & nm & Hc & [st Hst]).
  cbn [fst snd] in *. unfold StateMachineBuilder.update_current. rewrite Hc.
  eexists. split; [reflexivity|]. unfold state_object_open. cbn [fst snd].
  rewrite length_alter, read_table_alter by exact Hl.
  split; [exact Hl|]. exists nm. split; [exact Hc|].
  rewrite lookup_alter_eq, Hst. cbn. eauto.
Qed.

Lemma apply_call_opened k hb :
  state_object_open hb → declares_plain_name k →
  ∃ hb', apply_call k hb = Normal hb' ∧ state_object_open hb'.
Proof.
  intros Ho Hk. destruct k; cbn [apply_call].
  - apply state_opens; [apply Ho | exact Hk].
  - unfold StateMachineBuilder.on.
    destruct Ho as (Hl & nm & Hc & [st Hst]). rewrite Hc, Hst.
    apply update_current_opened. split; [exact Hl|]. exists nm. eauto.
  - apply update_current_opened. exact Ho.
  - apply update_current_opened. exact Ho.
  - destruct hb as [h b]. eexists. split; [reflexivity|]. exact Ho.
  - destruct hb as [h b]. eexists. split; [reflexivity|]. exact Ho.
Qed.

Lemma apply_calls_opened ks hb :
  state_object_open hb → Forall declares_plain_name ks →
  ∃ hb', apply_calls ks hb = Normal hb'.
Proof.
  intros Ho Hks. revert hb Ho.
  induction Hks as [|k ks Hk _ IH]; intros hb Ho; cbn [apply_calls].
  - eauto.
  - destruct (apply_call_opened k hb Ho Hk) as (hb1 & H1 & Ho1).
    rewrite H1. cbn [and_then]. apply IH. exact Ho1.
Qed.

(** An update through a name under which the table holds nothing leaves
    the heap as it is. *)
Lemma update_table_without_object (f : State → State) nm l (h : Heap) :
  read_table h l !! nm = None →
  alter (alter f nm) l h = h.
Proof.
  intros Hnone. rewrite <- (list_alter_id id h l) at 2 by reflexivity.
  apply list_alter_ext; [|reflexivity].
  intros tbl Htbl. unfold read_table in Hnone. rewrite Htbl in Hnone.
  cbn in Hnone. change (id tbl) with tbl.
  apply map_eq. intros i. rewrite lookup_alter.
  case_decide as Hd; [|reflexivity]. subst i. rewrite Hnone. reflexivity.
Qed.

Lemma new_table_empty (h : Heap) : read_table (h ++ [∅]) (length h) = ∅.
Proof.
  unfold read_table. rewrite lookup_app_r by lia.
  rewrite Nat.sub_diag. reflexivity.
Qed.

(** [state] under an inherited name on a new builder: nothing is stored. *)
Lemma state_inherited_on_new nm h :
  object_prototype_member nm = true →
  StateMachineBuilder.state nm (StateMachineBuilder.new h) =
    Normal (h ++ [∅],
            StateMachineBuilder.mk (length h) (Some nm) (Some nm)
              StateMachineBuilder.default_wrapper (λ c, c)).
Proof.
  intros Hin. unfold StateMachineBuilder.state, StateMachineBuilder.new.
  cbn [StateMachineBuilder.states StateMachineBuilder.defaultState
       StateMachineBuilder.matcherWrapper StateMachineBuilder.contextInitializer
       js_truthy].
  rewrite new_table_empty, lookup_empty, Hin. reflexivity.
Qed.

(** X10.  When a builder call throws.  On a new builder [on], [onEnd] and
    [else] throw a [TypeError] before any [state] call.  A chain that
    starts with a [state] call and opens no state under the name of a
    member of [Object.prototype] never throws.  After [state] under such a
    name (["toString"], ["constructor"], ...) no state object is open:
    [on] throws a [TypeError], while [onEnd] and [else] complete and leave
    the table as it was. *)
Theorem builder_throws_without_state_object h :
  (∀ k, is_rule_call k = true →
        apply_call k (StateMachineBuilder.new h) = Throw TypeError) ∧
  (∀ nm ks, Forall declares_plain_name (CallState nm :: ks) →
        ∃ hb, apply_calls (CallState nm :: ks) (StateMachineBuilder.new h)
              = Normal hb) ∧
  (∀ nm m acts, object_prototype_member nm = true →
        apply_calls [CallState nm; CallOn m acts] (StateMachineBuilder.new h)
          = Throw TypeError) ∧
  (∀ nm acts1 acts2, object_prototype_member nm = true →
        ∃ b, apply_calls [CallState nm; CallOnEnd acts1; CallElse acts2]
               (StateMachineBuilder.new h)
             = Normal (fst (StateMachineBuilder.new h), b)).
Proof.
  split; [|split; [|split]].
  - intros k Hk. destruct k; try discriminate; reflexivity.
  - intros nm ks Hks. apply Forall_cons in Hks as [Hnm Hks].
    cbn [apply_calls apply_call].
    destruct (state_opens nm (StateMachineBuilder.new h)
                (new_builder_allocated h) Hnm) as (hb1 & H1 & Ho1).
    rewrite H1. cbn [and_then]. apply apply_calls_opened; assumption.
  - intros nm m acts Hin. cbn [apply_calls apply_call].
    rewrite (state_inherited_on_new nm h Hin). cbn [and_then].
    unfold StateMachineBuilder.on.
    cbn [fst snd StateMachineBuilder.currentState StateMachineBuilder.states].
    rewrite new_table_empty, lookup_empty. reflexivity.
  - intros nm acts1 acts2 Hin. cbn [apply_calls apply_call].
    rewrite (state_inherited_on_new nm h Hin). cbn [and_then].
    unfold StateMachineBuilder.onEnd, StateMachineBuilder.else_,
      StateMachineBuilder.update_current.
    cbn [fst snd StateMachineBuilder.currentState StateMachineBuilder.states
         and_then].
    rewrite (update_table_without_object _ nm (length h) (h ++ [∅]))
      by (rewrite new_table_empty; apply lookup_empty).
    rewrite (update_table_without_object _ nm (length h) (h ++ [∅]))
      by (rewrite new_table_empty; apply lookup_empty).
    eauto.
Qed.




Lemma builder_throws_without_state_object_witness :
  apply_call (CallOnEnd [Tokenizer.emit "text"]) (StateMachineBuilder.new [])
    = Throw TypeError ∧
  (∃ hb, apply_calls [CallState "text"; CallOnEnd [Tokenizer.emit "text"]]
           (StateMachineBuilder.new []) = Normal hb) ∧
  apply_calls [CallState "toString"; CallOn (MLiteral "x") []]
    (StateMachineBuilder.new []) = Throw TypeError ∧
  (∃ b, apply_calls [CallState "constructor"; CallOnEnd []; CallElse []]
          (StateMachineBuilder.new [])
        = Normal (fst (StateMachineBuilder.new []), b)).
Proof.
  destruct (builder_throws_without_state_object []) as (H1 & H2 & H3 & H4).
  split; [apply H1; reflexivity|].
  split; [apply H2; repeat constructor|].
  split; [apply H3; reflexivity|].
  apply H4; reflexivity.
Defined.



(** X12.  [onEnd] and [else] replace: of two calls in a row on the open
    state only the second one counts, and the chain is the same as if the
    first had not been made (it throws in the same way when no state is
    open). *)
Theorem end_and_fallback_are_replaced a1 a2 hb :
  (StateMachineBuilder.onEnd a1 hb |> StateMachineBuilder.onEnd a2)
    = StateMachineBuilder.onEnd a2 hb ∧
  (StateMachineBuilder.else_ a1 hb |> StateMachineBuilder.else_ a2)
    = StateMachineBuilder.else_ a2 hb.
Proof.
  destruct hb as [h b].
  unfold StateMachineBuilder.onEnd, StateMachineBuilder.else_,
    StateMachineBuilder.update_current.
  destruct (StateMachineBuilder.currentState b) as [nm|] eqn:Hc;
    cbn [and_then]; [|split; reflexivity].
  rewrite Hc.
  split; do 2 f_equal; rewrite list_alter_alter_eq;
    apply list_alter_ext; try reflexivity;
    intros tbl _; cbn; rewrite alter_alter_eq;
    apply alter_ext; intros st _; reflexivity.
Qed.

(** X13.  Reopening a declared state with [state(name)] leaves the table
    as it is, and an [on] after it adds its rule behind the rules the
    state already has; the state's fallback and end actions and the other
    states are not touched. *)
Theorem reopened_state_keeps_its_rules h b nm st m acts :
  read_table h (StateMachineBuilder.states b) !! nm = Some st →
  ∃ b1 h2,
    StateMachineBuilder.state nm (h, b) = Normal (h, b1) ∧
    StateMachineBuilder.matcherWrapper b1 = StateMachineBuilder.matcherWrapper b ∧
    StateMachineBuilder.on m acts (h, b1) = Normal (h2, b1) ∧
    read_table h2 (StateMachineBuilder.states b) !! nm =
      Some (mkState (name st)
              (matchers st ++ [mkRule (StateMachineBuilder.matcherWrapper b m) acts])
              (defaultActions st) (endActions st)) ∧
    ∀ nm', nm' ≠ nm →
      read_table h2 (StateMachineBuilder.states b) !! nm'
        = read_table h (StateMachineBuilder.states b) !! nm'.
Proof.
  intros Hst. unfold StateMachineBuilder.state. rewrite Hst.
  eexists _, _. split; [reflexivity|]. split; [reflexivity|].
  unfold StateMachineBuilder.on, StateMachineBuilder.update_current.
  cbn [fst snd StateMachineBuilder.currentState StateMachineBuilder.states
       StateMachineBuilder.matcherWrapper].
  rewrite Hst. split; [reflexivity|].
  unfold read_table in *. rewrite list_lookup_alter_eq.
  destruct (h !! StateMachineBuilder.states b) as [tbl|]; cbn in *.
  - split.
    + rewrite lookup_alter_eq, Hst. reflexivity.
    + intros nm' Hne. apply lookup_alter_ne. congruence.
  - rewrite lookup_empty in Hst. discriminate.
Qed.

Lemma reopened_state_keeps_its_rules_witness :
  ∃ b1 h2,
    StateMachineBuilder.state "text" ([A_table], tag_builder)
      = Normal ([A_table], b1) ∧
    StateMachineBuilder.matcherWrapper b1
      = StateMachineBuilder.matcherWrapper tag_builder ∧
    StateMachineBuilder.on (MLiteral "\") [Tokenizer.state "escaped_char"]
      ([A_table], b1) = Normal (h2, b1) ∧
    read_table h2 (StateMachineBuilder.states tag_builder) !! "text" =
      Some (mkState "text"
              ([mkRule (Tokenizer.tokenizer_wrapper (MLiteral "["))
                       [Tokenizer.emit "text"; Tokenizer.state "color"]]
                 ++ [mkRule (StateMachineBuilder.matcherWrapper tag_builder
                               (MLiteral "\"))
                            [Tokenizer.state "escaped_char"]])
              [Tokenizer.accept] [Tokenizer.emit "text"]) ∧
    ∀ nm', nm' ≠ "text" →
      read_table h2 (StateMachineBuilder.states tag_builder) !! nm'
        = read_table [A_table] (StateMachineBuilder.states tag_builder) !! nm'.
Proof.
  apply (reopened_state_keeps_its_rules [A_table] tag_builder "text"
           (mkState "text"
              [mkRule (Tokenizer.tokenizer_wrapper (MLiteral "["))
                      [Tokenizer.emit "text"; Tokenizer.state "color"]]
              [Tokenizer.accept] [Tokenizer.emit "text"])
           (MLiteral "\") [Tokenizer.state "escaped_char"]).
  vm_compute. reflexivity.
Defined.

(** ** util.js: [streamify] *)

Lemma stream_next_in_range {A} (s : Stream.t (A:=A)) x :
  Stream.iterable s !! Stream.inputPosition s = Some x →
  Stream.next s = (Some x, Stream.mk (Stream.iterable s) (S (Stream.inputPosition s))).
Proof.
  intros Hx. unfold Stream.next.
  pose proof (lookup_lt_Some _ _ _ Hx) as Hlt.
  destruct (Nat.leb_spec (length (Stream.iterable s)) (Stream.inputPosition s));
    [lia|]. rewrite Hx. reflexivity.
Qed.

Lemma stream_next_exhausted {A} (s : Stream.t (A:=A)) :
  Stream.iterable s !! Stream.inputPosition s = None →
  Stream.next s = (None, s).
Proof.
  intros Hx. unfold Stream.next.
  pose proof (lookup_ge_None_1 _ _ Hx) as Hge.
  destruct (Nat.leb_spec (length (Stream.iterable s)) (Stream.inputPosition s));
    [reflexivity | lia].
Qed.

Lemma stream_advance {A} k (s : Stream.t (A:=A)) :
  Stream.advance k s =
    Stream.mk (Stream.iterable s)
      (Stream.inputPosition s
       + Nat.min k (length (Stream.iterable s) - Stream.inputPosition s)).
Proof.
  revert s. induction k as [|k IH]; intros s; cbn [Stream.advance].
  - destruct s. cbn. f_equal. lia.
  - destruct (Stream.iterable s !! Stream.inputPosition s) as [x|] eqn:Hx.
    + rewrite (stream_next_in_range s x Hx). cbn [snd]. rewrite IH.
      cbn [Stream.iterable Stream.inputPosition].
      pose proof (lookup_lt_Some _ _ _ Hx). f_equal. lia.
    + rewrite (stream_next_exhausted s Hx). cbn [snd]. rewrite IH.
      pose proof (lookup_ge_None_1 _ _ Hx). f_equal. lia.
Qed.

(** X14.  The stream made from an array or a string hands out the element
    of index [k] on call number [k] and [undefined] on every call from the
    length on; it never changes the iterable, and what it has not handed
    out after that call is the iterable from index [k + 1] on. *)
Theorem streamify_yields_in_order {A} (xs : list A) k :
  let s := Stream.advance k (Stream.streamify xs) in
  fst (Stream.next s) = xs !! k ∧
  Stream.iterable (snd (Stream.next s)) = xs ∧
  drop (Stream.inputPosition (snd (Stream.next s))) xs = drop (S k) xs.
Proof.
  intros s. subst s. rewrite stream_advance.
  cbn [Stream.streamify Stream.iterable Stream.inputPosition].
  rewrite Nat.sub_0_r, Nat.add_0_l.
  destruct (xs !! k) as [x|] eqn:Hx.
  - pose proof (lookup_lt_Some _ _ _ Hx) as Hlt.
    rewrite Nat.min_l by lia.
    rewrite (stream_next_in_range (Stream.mk xs k) x Hx). auto.
  - pose proof (lookup_ge_None_1 _ _ Hx) as Hge.
    rewrite Nat.min_r by lia.
    rewrite (stream_next_exhausted (Stream.mk xs (length xs)))
      by (apply lookup_ge_None_2; cbn; lia).
    cbn. rewrite !drop_ge by lia. auto.
Qed.

(** ** util.js: [streamOperator] *)

Section OperatorFacts.
Context {V W St : Type}.
Variable operator : St → option V → St * list W.

Lemma operator_loop_outstanding src fin s :
  fst (StreamOperator.loop operator src fin s)
    = head (StreamOperator.emitted operator src fin s) ∧
  StreamOperator.outstanding operator (snd (StreamOperator.loop operator src fin s))
    = tail (StreamOperator.emitted operator src fin s).
Proof.
  revert s. induction src as [|v rest IH]; intros s;
    cbn [StreamOperator.loop StreamOperator.emitted].
  - destruct fin; [|split; reflexivity].
    destruct (operator s None) as [s' [|w b]]; cbn; [split; reflexivity|].
    unfold StreamOperator.outstanding. cbn. rewrite app_nil_r. auto.
  - destruct (operator s (Some v)) as [s' [|w b]]; cbn [fst snd].
    + apply IH.
    + split; reflexivity.
Qed.

Lemma operator_next_outstanding o :
  fst (StreamOperator.next operator o)
    = head (StreamOperator.outstanding operator o) ∧
  StreamOperator.outstanding operator (snd (StreamOperator.next operator o))
    = tail (StreamOperator.outstanding operator o).
Proof.
  destruct o as [src buf fin s].
  unfold StreamOperator.next. cbn [StreamOperator.buffer
    StreamOperator.source StreamOperator.finalize StreamOperator.opstate].
  destruct buf as [|w b].
  - apply operator_loop_outstanding.
  - split; reflexivity.
Qed.

(** X15.  An operated stream hands out, one value per call, exactly the
    values the operator emits when it is run over the source items in
    order and, if [finalize] is set, once more on [undefined] after the
    last item; when they are all out every call returns [undefined].  No
    emitted value is dropped, however many the operator emits at once. *)
Theorem stream_operator_delivers_every_emit (stream : list V) fin s k :
  fst (StreamOperator.next operator
         (StreamOperator.advance operator k
            (StreamOperator.streamOperator stream fin s)))
    = StreamOperator.emitted operator stream fin s !! k.
Proof.
  assert (Hgen : ∀ o,
            fst (StreamOperator.next operator (StreamOperator.advance operator k o))
              = StreamOperator.outstanding operator o !! k).
  { induction k as [|k IH]; intros o; cbn [StreamOperator.advance].
    - rewrite <- head_lookup. apply operator_next_outstanding.
    - rewrite IH, (proj2 (operator_next_outstanding o)). apply lookup_tail. }
  apply Hgen.
Qed.

End OperatorFacts.

(** ** util.js: [consumeStream] *)

Lemma consume_from {A Acc} (truthy : A → bool) (consumer : A → Acc → Acc)
    fuel (s : Stream.t (A:=A)) acc :
  (length (drop (Stream.inputPosition s) (Stream.iterable s)) < fuel)%nat →
  consumeStream truthy Stream.next consumer fuel s acc =
    Some (foldl (λ a v, consumer v a) acc
            (truthy_prefix truthy
               (drop (Stream.inputPosition s) (Stream.iterable s))),
          Stream.mk (Stream.iterable s)
            (Stream.inputPosition s
             + Nat.min
                 (S (length (truthy_prefix truthy
                               (drop (Stream.inputPosition s) (Stream.iterable s)))))
                 (length (drop (Stream.inputPosition s) (Stream.iterable s))))).
Proof.
  revert s acc. induction fuel as [|fuel IH]; intros s acc Hlen; [lia|].
  cbn [consumeStream].
  destruct (Stream.iterable s !! Stream.inputPosition s) as [x|] eqn:Hx.
  - rewrite (stream_next_in_range s x Hx).
    rewrite (drop_S _ _ _ Hx) in Hlen |- *. cbn [truthy_prefix length] in *.
    set (n := length (drop (S (Stream.inputPosition s)) (Stream.iterable s))) in *.
    destruct (truthy x).
    + rewrite IH by (cbn [Stream.iterable Stream.inputPosition]; fold n; lia).
      cbn [Stream.iterable Stream.inputPosition foldl length]. fold n.
      set (j := length (truthy_prefix truthy
                          (drop (S (Stream.inputPosition s)) (Stream.iterable s)))).
      replace (S (Stream.inputPosition s) + Nat.min (S j) n)%nat
        with (Stream.inputPosition s + Nat.min (S (S j)) (S n))%nat by lia.
      reflexivity.
    + cbn [length foldl].
      replace (Stream.inputPosition s + Nat.min 1 (S n))%nat
        with (S (Stream.inputPosition s)) by lia.
      reflexivity.
  - rewrite (stream_next_exhausted s Hx).
    rewrite drop_ge by (apply lookup_ge_None_1; exact Hx).
    cbn [truthy_prefix length foldl].
    replace (Stream.inputPosition s + Nat.min 1 0)%nat
      with (Stream.inputPosition s) by lia.
    destruct s. reflexivity.
Qed.

(** X16.  [consumeStream] over the stream of an array passes the items to
    the consumer in order up to, and not including, the first falsy item
    (for strings: the first empty string), and stops there: the stream is
    left just behind that item, so the items after it are not read.  When
    every item is truthy all are consumed and the stream is left at its
    end.  A bound above the length is enough for the loop to end. *)
Theorem consume_stops_at_first_falsy {A Acc} (truthy : A → bool)
    (consumer : A → Acc → Acc) (xs : list A) acc fuel :
  (length xs < fuel)%nat →
  consumeStream truthy Stream.next consumer fuel (Stream.streamify xs) acc =
    Some (foldl (λ a v, consumer v a) acc (truthy_prefix truthy xs),
          Stream.mk xs
            (Nat.min (S (length (truthy_prefix truthy xs))) (length xs))).
Proof.
  intros Hlen.
  apply (consume_from truthy consumer fuel (Stream.streamify xs) acc).
  exact Hlen.
Qed.

Lemma consume_stops_at_first_falsy_witness :
  consumeStream string_truthy Stream.next (λ v acc, acc ++ [v]) 5
    (Stream.streamify ["a"; "b"; ""; "c"]) [] =
    Some (foldl (λ a v, a ++ [v]) []
            (truthy_prefix string_truthy ["a"; "b"; ""; "c"]),
          Stream.mk ["a"; "b"; ""; "c"]
            (Nat.min (S (length (truthy_prefix string_truthy ["a"; "b"; ""; "c"])))
                     (length ["a"; "b"; ""; "c"]))).
Proof.
  apply (consume_stops_at_first_falsy string_truthy (λ v acc, acc ++ [v])
           ["a"; "b"; ""; "c"] [] 5).
  cbn. lia.
Defined.

(** There the consumer got ["a"] and ["b"], and the stream stands at index
    3: the item of index 3 was not read. *)
Example consume_example :
  consumeStream string_truthy Stream.next (λ v acc, acc ++ [v]) 5
    (Stream.streamify ["a"; "b"; ""; "c"]) []
  = Some (["a"; "b"], Stream.mk ["a"; "b"; ""; "c"] 3).
Proof. vm_compute. reflexivity. Qed.

(** ** The colour-tag tokenizer on arbitrary input *)

Lemma append_nil_r (s : string) : s +:+ "" = s.
Proof.
  induction s as [|a s IH]; [reflexivity|].
  change (String a s +:+ "") with (String a (s +:+ "")). rewrite IH. reflexivity.
Qed.

Lemma append_assoc (s t u : string) : (s +:+ t) +:+ u = s +:+ (t +:+ u).
Proof.
  induction s as [|a s IH]; [reflexivity|].
  change ((String a s +:+ t) +:+ u) with (String a ((s +:+ t) +:+ u)).
  rewrite IH. reflexivity.
Qed.

Lemma A_table_text :
  A_table !! "text" =
    Some (mkState "text"
            [mkRule (Tokenizer.tokenizer_wrapper (MLiteral "["))
                    [Tokenizer.emit "text"; Tokenizer.state "color"]]
            [Tokenizer.accept]
            [Tokenizer.emit "text"]).
Proof. vm_compute. reflexivity. Qed.

Lemma A_table_color :
  A_table !! "color" =
    Some (mkState "color"
            [mkRule (Tokenizer.tokenizer_wrapper (MLiteral "]"))
                    [Tokenizer.emit "color"; Tokenizer.state "text"]]
            [Tokenizer.accept]
            []).
Proof. vm_compute. reflexivity. Qed.

(** In [text], items other than the opening bracket pile up in the buffer
    and the end of the input emits it. *)
Lemma A_text_loop xs : ∀ n cp ci b cs ks,
  "[" ∉ xs →
  let c := Context.mk (Some "text") ci cp [] false (VString b) cs ks in
  fst (StateMachine.do_while A_table xs n c)
    = Normal (Some (mkToken "text" (VString (b +:+ text_of xs)))) ∧
  Context.finished (context (snd (StateMachine.do_while A_table xs n c))) = true ∧
  Context.tokens (context (snd (StateMachine.do_while A_table xs n c))) = [].
Proof.
  induction xs as [|x xs IH]; intros n cp ci b cs ks Hno c; subst c.
  - cbn [StateMachine.do_while].
    change (js_key (Context.state (StateMachine.pull_input None _))) with "text".
    rewrite A_table_text. cbn. rewrite append_nil_r. auto.
  - apply not_elem_of_cons in Hno as [Hx Hxs].
    cbn [StateMachine.do_while].
    change (js_key (Context.state (StateMachine.pull_input (Some x) _)))
      with "text".
    rewrite A_table_text.
    cbn [matchers find_rule matcher Tokenizer.tokenizer_wrapper
         StateMachine.pull_input Context.currentItem Context.set_currentItem
         Context.set_currentPosition].
    replace (js_strict_eq (Some x) (Some "[")) with false
      by (symmetry; apply js_strict_eq_false; congruence).
    cbn.
    change (Context.set_buffer _ _)
      with (Context.mk (Some "text") (Some x) (cp + 1) [] false
              (VString (b +:+ x)) cs ks).
    change (foldr String.append "" xs) with (text_of xs).
    destruct (IH (S n) (cp + 1) (Some x) (b +:+ x) cs ks Hxs) as (H1 & H2 & H3).
    cbv zeta in H1, H2, H3.
    rewrite H1, H2, H3, append_assoc. auto.
Qed.

(** In [text], the opening bracket emits what was accepted before it and
    leaves the run in [color] with an empty buffer. *)
Lemma A_text_to_bracket pre : ∀ rest n cp ci b cs ks,
  "[" ∉ pre →
  ∃ cp' n',
    StateMachine.do_while A_table (pre ++ "[" :: rest) n
      (Context.mk (Some "text") ci cp [] false (VString b) cs ks) =
    (Normal (Some (mkToken "text" (VString (b +:+ text_of pre)))),
     mkRun (Context.mk (Some "color") (Some "[") cp' [] false (VString "") cs ks)
           rest n').
Proof.
  induction pre as [|x pre IH]; intros rest n cp ci b cs ks Hno.
  - cbn [app StateMachine.do_while].
    change (js_key (Context.state (StateMachine.pull_input (Some "[") _)))
      with "text".
    rewrite A_table_text. cbn. rewrite append_nil_r. eauto.
  - apply not_elem_of_cons in Hno as [Hx Hxs].
    change ((x :: pre) ++ "[" :: rest) with (x :: (pre ++ "[" :: rest)).
    cbn [StateMachine.do_while].
    change (js_key (Context.state (StateMachine.pull_input (Some x) _)))
      with "text".
    rewrite A_table_text.
    cbn [matchers find_rule matcher Tokenizer.tokenizer_wrapper
         StateMachine.pull_input Context.currentItem Context.set_currentItem
         Context.set_currentPosition].
    replace (js_strict_eq (Some x) (Some "[")) with false
      by (symmetry; apply js_strict_eq_false; congruence).
    cbn.
    change (Context.set_buffer _ _)
      with (Context.mk (Some "text") (Some x) (cp + 1) [] false
              (VString (b +:+ x)) cs ks).
    change (foldr String.append "" pre) with (text_of pre).
    destruct (IH rest (S n) (cp + 1) (Some x) (b +:+ x) cs ks Hxs)
      as (cp' & n' & H).
    rewrite H, append_assoc. eauto.
Qed.

(** In [color], without a closing bracket the input runs out: nothing is
    emitted and the run finishes. *)
Lemma A_color_loop xs : ∀ n cp ci bv cs ks,
  "]" ∉ xs →
  let c := Context.mk (Some "color") ci cp [] false bv cs ks in
  fst (StateMachine.do_while A_table xs n c) = Normal None ∧
  Context.finished (context (snd (StateMachine.do_while A_table xs n c))) = true ∧
  Context.tokens (context (snd (StateMachine.do_while A_table xs n c))) = [].
Proof.
  induction xs as [|x xs IH]; intros n cp ci bv cs ks Hno c; subst c.
  - cbn [StateMachine.do_while].
    change (js_key (Context.state (StateMachine.pull_input None _))) with "color".
    rewrite A_table_color. cbn. auto.
  - apply not_elem_of_cons in Hno as [Hx Hxs].
    cbn [StateMachine.do_while].
    change (js_key (Context.state (StateMachine.pull_input (Some x) _)))
      with "color".
    rewrite A_table_color.
    cbn [matchers find_rule matcher Tokenizer.tokenizer_wrapper
         StateMachine.pull_input Context.currentItem Context.set_currentItem
         Context.set_currentPosition].
    replace (js_strict_eq (Some x) (Some "]")) with false
      by (symmetry; apply js_strict_eq_false; congruence).
    cbn.
    change (Context.set_buffer _ _)
      with (Context.mk (Some "color") (Some x) (cp + 1) [] false
              (js_plus bv (VString x)) cs ks).
    destruct (IH (S n) (cp + 1) (Some x) (js_plus bv (VString x)) cs ks Hxs)
      as (H1 & H2 & H3).
    cbv zeta in H1, H2, H3. rewrite H1, H2, H3. auto.
Qed.

(** X18.  The colour-tag tokenizer of the Readme, on any input without an
    opening bracket, returns one text token whose value is the whole
    input (the empty string for an empty input), and then the end
    signal. *)
Theorem plain_text_is_one_token (xs : list string) :
  "[" ∉ xs →
  fst (pull 2 [A_table] tag_machine (StateMachine.process tag_machine xs)) =
    [Normal (Some (mkToken "text" (VString (text_of xs)))); Normal None].
Proof.
  intros Hno.
  destruct (A_text_loop xs 0%nat (-1) None "" None None Hno) as (H1 & H2 & _).
  cbv zeta in H1, H2.
  rewrite pull_S.
  assert (Hnext : StateMachine.next [A_table] tag_machine
                    (StateMachine.process tag_machine xs)
                  = StateMachine.do_while A_table xs 0
                      (Context.mk (Some "text") None (-1) [] false
                         (VString "") None None)) by reflexivity.
  rewrite Hnext, H1. f_equal.
  rewrite pull_S, next_finished by exact H2. reflexivity.
Qed.

Lemma plain_text_is_one_token_witness :
  fst (pull 2 [A_table] tag_machine
         (StateMachine.process tag_machine (chars_of "lazy dog"))) =
    [Normal (Some (mkToken "text" (VString (text_of (chars_of "lazy dog")))));
     Normal None].
Proof.
  apply (plain_text_is_one_token (chars_of "lazy dog")).
  vm_compute. intros H. repeat (apply elem_of_cons in H as [H|H]; [discriminate|]).
  apply elem_of_nil in H. exact H.
Defined.


(** ** Lazy pulls and the eager run *)

Lemma nth_pull_0 h m r : nth_pull 0 h m r = fst (StateMachine.next h m r).
Proof. reflexivity. Qed.

Lemma nth_pull_S k h m r :
  nth_pull (S k) h m r = nth_pull k h m (snd (StateMachine.next h m r)).
Proof. unfold nth_pull. rewrite after_S. reflexivity. Qed.

Lemma follows_trace_next_eq h m r r' tr :
  StateMachine.next h m r = StateMachine.next h m r' →
  follows_trace h m r' tr → follows_trace h m r tr.
Proof.
  intros Hn.
  assert (Heq : ∀ k, nth_pull k h m r = nth_pull k h m r').
  { intros [|k]; [rewrite !nth_pull_0 | rewrite !nth_pull_S]; rewrite Hn;
      reflexivity. }
  intros (H1 & H2 & H3). repeat split.
  - intros k tok Hk. rewrite Heq. apply H1. exact Hk.
  - intros Hout k Hk. rewrite Heq. apply H2; assumption.
  - intros e He. rewrite Heq. apply H3. exact He.
Qed.

Lemma follows_trace_cons h m r tok r1 ts out :
  StateMachine.next h m r = (Normal (Some tok), r1) →
  follows_trace h m r1 (ts, out) →
  follows_trace h m r (tok :: ts, out).
Proof.
  intros Hn (H1 & H2 & H3). cbn [fst snd] in *. repeat split; cbn [fst snd].
  - intros [|k] t Hk.
    + injection Hk as <-. rewrite nth_pull_0, Hn. reflexivity.
    + rewrite nth_pull_S, Hn. apply H1. exact Hk.
  - intros Hout [|k] Hk; cbn [length] in Hk; [lia|].
    rewrite nth_pull_S, Hn. apply H2; [exact Hout | lia].
  - intros e He. cbn [length]. rewrite nth_pull_S, Hn. apply H3. exact He.
Qed.

Lemma follows_trace_throw h m r e r1 :
  StateMachine.next h m r = (Throw e, r1) →
  follows_trace h m r ([], Some e).
Proof.
  intros Hn. repeat split; cbn [fst snd].
  - intros k tok Hk. rewrite lookup_nil in Hk. discriminate.
  - discriminate.
  - intros e' [= <-]. cbn [length]. rewrite nth_pull_0, Hn. reflexivity.
Qed.

Lemma follows_trace_finished h m r :
  Context.finished (context r) = true →
  follows_trace h m r ([], None).
Proof.
  intros Hf. repeat split; cbn [fst snd].
  - intros k tok Hk. rewrite lookup_nil in Hk. discriminate.
  - intros _ k _. apply nth_pull_finished. exact Hf.
  - discriminate.
Qed.

Lemma follows_trace_queue h m q : ∀ c p n ts out,
  Context.tokens c = q →
  Context.finished c = false →
  follows_trace h m (mkRun (Context.set_tokens [] c) p n) (ts, out) →
  follows_trace h m (mkRun c p n) (q ++ ts, out).
Proof.
  induction q as [|tok q IH]; intros c p n ts out Hq Hf Htr.
  - assert (Hc : Context.set_tokens [] c = c).
    { destruct c. cbn in Hq. subst. reflexivity. }
    rewrite Hc in Htr. exact Htr.
  - apply (follows_trace_cons h m _ tok (mkRun (Context.set_tokens q c) p n)).
    + unfold StateMachine.next, Context.shift. cbn [context pending pulls].
      rewrite Hf, Hq. reflexivity.
    + apply IH; [reflexivity | exact Hf | exact Htr].
Qed.

Lemma run_actions_finished acts c :
  Forall keeps_finished acts →
  Context.finished (snd (run_actions acts c)) = Context.finished c.
Proof.
  intros H. revert c. induction H as [|a acts Ha _ IH]; intros c; [reflexivity|].
  cbn. specialize (Ha c). destruct (a c) as [[u|e] c1]; cbn in Ha.
  - rewrite IH. exact Ha.
  - exact Ha.
Qed.

Lemma find_rule_finished rules c :
  Forall (λ r, keeps_finished (matcher r) ∧ Forall keeps_finished (actions r))
         rules →
  Context.finished (snd (find_rule rules c)) = Context.finished c ∧
  ∀ r, fst (find_rule rules c) = Normal (Some r) →
       Forall keeps_finished (actions r).
Proof.
  intros H. revert c.
  induction H as [|q rules [Hm Ha] _ IH]; intros c.
  - split; [reflexivity|]. cbn. intros r Hr. discriminate.
  - cbn. specialize (Hm c). destruct (matcher q c) as [[[|]|e] c1]; cbn in Hm.
    + split; [exact Hm|]. cbn. intros r Hr. injection Hr as <-. exact Ha.
    + destruct (IH c1) as [IH1 IH2]. split; [rewrite IH1; exact Hm | exact IH2].
    + split; [exact Hm|]. cbn. intros r Hr. discriminate.
Qed.

Lemma lazy_follows_eager h m input : ∀ n c,
  table_keeps_finished (read_table h (StateMachine.states m)) →
  Context.tokens c = [] →
  Context.finished c = false →
  follows_trace h m (mkRun c input n)
    (eager (read_table h (StateMachine.states m)) input c).
Proof.
  induction input as [|item rest IH]; intros n c Htbl Ht Hf.
  - assert (Hnext : StateMachine.next h m (mkRun c [] n) =
              StateMachine.do_while (read_table h (StateMachine.states m)) [] n c).
    { unfold StateMachine.next. cbn [context pending pulls]. rewrite Hf, Ht.
      reflexivity. }
    cbn [eager StateMachine.do_while] in *.
    destruct (read_table h (StateMachine.states m) !! _) as [st|];
      [|eapply follows_trace_throw; exact Hnext].
    destruct (run_actions (endActions st) _) as [[u|e] c2];
      [|eapply follows_trace_throw; exact Hnext].
    unfold Context.shift in Hnext.
    cbn [Context.tokens Context.set_finished] in Hnext.
    destruct (Context.tokens c2) as [|tok q]; cbn [take].
    + eapply follows_trace_next_eq with (r' := mkRun (Context.set_finished true c2) [] (S n)).
      * rewrite Hnext. rewrite next_finished by reflexivity. reflexivity.
      * apply follows_trace_finished. reflexivity.
    + eapply follows_trace_cons; [exact Hnext|].
      apply follows_trace_finished. reflexivity.
  - assert (Hnext : StateMachine.next h m (mkRun c (item :: rest) n) =
              StateMachine.do_while (read_table h (StateMachine.states m))
                (item :: rest) n c).
    { unfold StateMachine.next. cbn [context pending pulls]. rewrite Hf, Ht.
      reflexivity. }
    cbn [eager StateMachine.do_while] in *.
    change (Context.state (StateMachine.pull_input (Some item) c))
      with (Context.state c) in *.
    destruct (read_table h (StateMachine.states m) !! js_key (Context.state c))
      as [st|] eqn:Hst; [|eapply follows_trace_throw; exact Hnext].
    destruct (Htbl _ _ Hst) as (Hrules & Hdef & _).
    destruct (find_rule_finished (matchers st)
                (StateMachine.pull_input (Some item) c) Hrules) as [Hp Hacts].
    destruct (find_rule (matchers st) _) as [[found|e] c2];
      [|eapply follows_trace_throw; exact Hnext].
    cbn [fst snd] in Hp, Hacts.
    assert (Hk : Forall keeps_finished
                   (match found with
                    | Some r => actions r
                    | None => defaultActions st
                    end)).
    { destruct found as [r|]; [apply Hacts; reflexivity | exact Hdef]. }
    pose proof (run_actions_finished _ c2 Hk) as Hq.
    destruct (run_actions _ c2) as [[u|e] c3];
      [|eapply follows_trace_throw; exact Hnext].
    cbn [fst snd] in Hq.
    assert (Hf3 : Context.finished c3 = false).
    { rewrite Hq, Hp. exact Hf. }
    specialize (IH (S n) (Context.set_tokens [] c3) Htbl eq_refl Hf3).
    destruct (eager (read_table h (StateMachine.states m)) rest
                (Context.set_tokens [] c3)) as [ts out].
    cbn [fst snd].
    destruct (Context.tokens c3) as [|tok q] eqn:Hq3.
    + cbn [app].
      eapply follows_trace_next_eq with (r' := mkRun c3 rest (S n)).
      * rewrite Hnext. unfold StateMachine.next. cbn [context pending pulls].
        rewrite Hf3, Hq3. reflexivity.
      * assert (Hc : Context.set_tokens [] c3 = c3).
        { destruct c3. cbn in Hq3. subst. reflexivity. }
        rewrite Hc in IH. exact IH.
    + unfold Context.shift in Hnext. rewrite Hq3 in Hnext.
      change ((tok :: q) ++ ts) with (tok :: (q ++ ts)).
      eapply follows_trace_cons; [exact Hnext|].
      apply follows_trace_queue; [reflexivity | exact Hf3 | exact IH].
Qed.

(** X20.  Pulling lazily gives what processing the whole input at once
    gives.  For a machine whose actions and matchers do not write
    [finished], started on a context with an empty queue: the successive
    calls of [next] return, in order, the tokens of the eager run (for
    each item the tokens its actions queued, and the first token queued by
    the end-of-input actions); after them every call returns [undefined]
    if the eager run ends normally, and the next call throws the error
    the eager run ends in otherwise. *)
Theorem lazy_pulls_match_eager_run h m input :
  table_keeps_finished (read_table h (StateMachine.states m)) →
  Context.tokens (context (StateMachine.process m input)) = [] →
  Context.finished (context (StateMachine.process m input)) = false →
  follows_trace h m (StateMachine.process m input)
    (eager (read_table h (StateMachine.states m)) input
       (context (StateMachine.process m input))).
Proof.
  intros Htbl Ht Hf.
  apply (lazy_follows_eager h m input 0%nat
           (context (StateMachine.process m input)) Htbl Ht Hf).
Qed.

Lemma accept_keeps_finished : keeps_finished Tokenizer.accept.
Proof. intros c. reflexivity. Qed.

Lemma state_action_keeps_finished nm : keeps_finished (Tokenizer.state nm).
Proof. intros c. reflexivity. Qed.

Lemma emit_keeps_finished ty : keeps_finished (Tokenizer.emit ty).
Proof. intros c. reflexivity. Qed.

Lemma error_keeps_finished msg : keeps_finished (Tokenizer.error msg).
Proof. intros c. reflexivity. Qed.

Lemma push_keeps_finished : keeps_finished Tokenizer.push.
Proof. intros c. reflexivity. Qed.

Lemma call_keeps_finished nm : keeps_finished (Tokenizer.call nm).
Proof. intros c. reflexivity. Qed.

Lemma ret_keeps_finished : keeps_finished Tokenizer.ret.
Proof.
  intros c. unfold Tokenizer.ret.
  destruct (Context.callstack c) as [[|x st]|]; reflexivity.
Qed.

Lemma pop_keeps_finished : keeps_finished Tokenizer.pop.
Proof.
  intros c. unfold Tokenizer.pop.
  destruct (Context.charstack c) as [st|]; [|reflexivity].
  destruct (js_strict_eq _ _); reflexivity.
Qed.

Lemma tokenizer_wrapper_keeps_finished m :
  (∀ f, m = MFunction f → keeps_finished f) →
  keeps_finished (Tokenizer.tokenizer_wrapper m).
Proof.
  intros Hf c. destruct m as [f|re|s]; cbn.
  - apply (Hf f eq_refl).
  - destruct (Context.currentItem c); reflexivity.
  - reflexivity.
Qed.

Ltac vocabulary_keeps_finished :=
  repeat first
    [ apply Forall_nil_2
    | apply Forall_cons_2
    | apply accept_keeps_finished
    | apply state_action_keeps_finished
    | apply emit_keeps_finished
    | apply error_keeps_finished
    | apply push_keeps_finished
    | apply call_keeps_finished
    | apply ret_keeps_finished
    | apply pop_keeps_finished
    | apply tokenizer_wrapper_keeps_finished; intros ? ?; discriminate
    | split ].

Lemma A_table_keeps_finished : table_keeps_finished A_table.
Proof.
  unfold table_keeps_finished, A_table.
  repeat apply map_Forall_insert_2; [| |apply map_Forall_empty];
    unfold state_keeps_finished; cbn [matchers defaultActions endActions];
    vocabulary_keeps_finished.
Qed.

Lemma lazy_pulls_match_eager_run_witness :
  follows_trace [A_table] tag_machine
    (StateMachine.process tag_machine (chars_of "a[b]c"))
    (eager (read_table [A_table] (StateMachine.states tag_machine))
       (chars_of "a[b]c")
       (context (StateMachine.process tag_machine (chars_of "a[b]c")))).
Proof.
  apply (lazy_pulls_match_eager_run [A_table] tag_machine (chars_of "a[b]c")).
  - exact A_table_keeps_finished.
  - reflexivity.
  - reflexivity.
Defined.

(** The eager run of the colour-tag tokenizer on ["a[b]c"]. *)
Example eager_tag_example :
  eager A_table (chars_of "a[b]c")
    (context (StateMachine.process tag_machine (chars_of "a[b]c")))
  = ([mkToken "text" (VString "a"); mkToken "color" (VString "b");
      mkToken "text" (VString "c")], None).
Proof. vm_compute. reflexivity. Qed.

(** ** The position is the index of the current item *)

Lemma run_actions_keeps {B} (view : Context.t → B) acts c :
  Forall (keeps view) acts → view (snd (run_actions acts c)) = view c.
Proof.
  intros H. revert c. induction H as [|a acts Ha _ IH]; intros c; [reflexivity|].
  cbn. specialize (Ha c). destruct (a c) as [[u|e] c1]; cbn in Ha.
  - rewrite IH. exact Ha.
  - exact Ha.
Qed.

Lemma find_rule_keeps {B} (view : Context.t → B) rules c :
  Forall (λ r, keeps view (matcher r) ∧ Forall (keeps view) (actions r)) rules →
  view (snd (find_rule rules c)) = view c ∧
  ∀ r, fst (find_rule rules c) = Normal (Some r) → Forall (keeps view) (actions r).
Proof.
  intros H. revert c.
  induction H as [|q rules [Hm Ha] _ IH]; intros c.
  - split; [reflexivity|]. cbn. intros r Hr. discriminate.
  - cbn. specialize (Hm c). destruct (matcher q c) as [[[|]|e] c1]; cbn in Hm.
    + split; [exact Hm|]. cbn. intros r Hr. injection Hr as <-. exact Ha.
    + destruct (IH c1) as [IH1 IH2]. split; [rewrite IH1; exact Hm | exact IH2].
    + split; [exact Hm|]. cbn. intros r Hr. discriminate.
Qed.

Lemma at_pull_intro input c p n c' :
  item_and_position c' = item_and_position c →
  Context.currentPosition c = Z.of_nat n - 1 →
  Context.currentItem c = input !! (n - 1)%nat →
  (0 < n)%nat →
  p = drop n input →
  at_pull input (mkRun c' p n).
Proof.
  unfold item_and_position. intros [= Hi Hp] Hpos Hitem Hn Hpend.
  unfold at_pull. cbn [context pending pulls].
  rewrite Hp, Hi. auto.
Qed.

Lemma shift_item_and_position c :
  item_and_position (snd (Context.shift c)) = item_and_position c.
Proof. unfold Context.shift. destruct (Context.tokens c); reflexivity. Qed.

Lemma do_while_at_pull tbl input : ∀ pend n c,
  table_keeps item_and_position tbl →
  Context.currentPosition c = Z.of_nat n - 1 →
  pend = drop n input →
  at_pull input (snd (StateMachine.do_while tbl pend n c)).
Proof.
  intros pend. induction pend as [|item rest IH]; intros n c Htbl Hpos Hpend.
  - assert (Hnone : input !! n = None).
    { apply lookup_ge_None_2. destruct (decide (length input ≤ n)%nat); [done|].
      exfalso. assert (Hl : length (drop n input) = 0%nat) by (rewrite <- Hpend; done).
      rewrite length_drop in Hl. lia. }
    assert (Hfin : ∀ c',
              item_and_position c' = item_and_position (StateMachine.pull_input None c) →
              at_pull input (mkRun c' [] (S n))).
    { intros c' Hc'. apply (at_pull_intro input (StateMachine.pull_input None c));
        [exact Hc' | cbn; lia | | lia |].
      - cbn. rewrite Nat.sub_0_r. symmetry. exact Hnone.
      - symmetry. apply drop_ge. apply lookup_ge_None_1 in Hnone. lia. }
    cbn [StateMachine.do_while].
    destruct (tbl !! _) as [st|] eqn:Hst; [|apply Hfin; reflexivity].
    destruct (Htbl _ _ Hst) as (_ & _ & Hend).
    pose proof (run_actions_keeps item_and_position (endActions st)
                  (StateMachine.pull_input None c) Hend) as Hk.
    destruct (run_actions (endActions st) _) as [[u|e] c2]; cbn [snd] in Hk;
      [|apply Hfin; exact Hk].
    pose proof (shift_item_and_position (Context.set_finished true c2)) as Hs.
    destruct (Context.shift (Context.set_finished true c2)) as [tok c3].
    cbn [snd] in *. apply Hfin. rewrite Hs. exact Hk.
  - assert (Hitem : input !! n = Some item ∧ rest = drop (S n) input).
    { assert (Hlt : (n < length input)%nat).
      { destruct (decide (n < length input)%nat); [done|].
        rewrite drop_ge in Hpend by lia. discriminate. }
      destruct (lookup_lt_is_Some_2 input n Hlt) as [x Hx].
      rewrite (drop_S _ _ _ Hx) in Hpend. injection Hpend as -> ->. auto. }
    destruct Hitem as [Hitem Hrest].
    assert (Hfin : ∀ c',
              item_and_position c'
                = item_and_position (StateMachine.pull_input (Some item) c) →
              at_pull input (mkRun c' rest (S n))).
    { intros c' Hc'.
      apply (at_pull_intro input (StateMachine.pull_input (Some item) c));
        [exact Hc' | cbn; lia | | lia | exact Hrest].
      cbn. rewrite Nat.sub_0_r. symmetry. exact Hitem. }
    cbn [StateMachine.do_while].
    destruct (tbl !! _) as [st|] eqn:Hst; [|apply Hfin; reflexivity].
    destruct (Htbl _ _ Hst) as (Hrules & Hdef & _).
    destruct (find_rule_keeps item_and_position (matchers st)
                (StateMachine.pull_input (Some item) c) Hrules) as [Hp Hacts].
    destruct (find_rule (matchers st) _) as [[found|e] c2]; cbn [fst snd] in Hp, Hacts;
      [|apply Hfin; exact Hp].
    assert (Hk : Forall (keeps item_and_position)
                   (match found with
                    | Some r => actions r
                    | None => defaultActions st
                    end)).
    { destruct found as [r|]; [apply Hacts; reflexivity | exact Hdef]. }
    pose proof (run_actions_keeps item_and_position _ c2 Hk) as Hq.
    destruct (run_actions _ c2) as [[u|e] c3]; cbn [snd] in Hq;
      [|apply Hfin; rewrite Hq; exact Hp].
    destruct (Context.tokens c3) as [|tok q] eqn:Hq3.
    + apply IH; [exact Htbl | | exact Hrest].
      assert (Hc3 : Context.currentPosition c3
                    = Context.currentPosition (StateMachine.pull_input (Some item) c)).
      { rewrite Hp in Hq. unfold item_and_position in Hq. congruence. }
      rewrite Hc3. cbn. lia.
    + pose proof (shift_item_and_position c3) as Hs.
      destruct (Context.shift c3) as [tok' c4]. cbn [snd] in *.
      apply Hfin. rewrite Hs, Hq. exact Hp.
Qed.

Lemma next_at_pull h m input r :
  table_keeps item_and_position (read_table h (StateMachine.states m)) →
  at_pull input r →
  at_pull input (snd (StateMachine.next h m r)).
Proof.
  intros Htbl (Hpos & Hpend & Hitem). unfold StateMachine.next.
  destruct (Context.finished (context r)); [repeat split; assumption|].
  destruct (Context.tokens (context r)) as [|tok q] eqn:Hq.
  - apply do_while_at_pull; assumption.
  - unfold Context.shift. rewrite Hq. cbn [snd]. repeat split; assumption.
Qed.

(** X21.  In a run of a machine whose actions, matchers and initializer
    write neither [currentItem] nor [currentPosition], after any number of
    calls of [next]: the input stream has handed out exactly the first
    [pulls] items, and once an item was pulled [currentPosition] is the
    index in the input of [currentItem] ([undefined] when the position is
    at or past the length of the input), so that an error raised by
    [error] names the position of the item that caused it. *)
Theorem position_is_index_of_current_item h m input k :
  table_keeps item_and_position (read_table h (StateMachine.states m)) →
  (∀ c, item_and_position (StateMachine.contextInitializer m c)
        = item_and_position c) →
  let r := after k h m (StateMachine.process m input) in
  pending r = drop (pulls r) input ∧
  ((0 < pulls r)%nat →
   Context.currentItem (context r)
     = input !! Z.to_nat (Context.currentPosition (context r))).
Proof.
  intros Htbl Hinit r.
  assert (Hgen : ∀ r0, at_pull input r0 → at_pull input (after k h m r0)).
  { induction k as [|j IH]; intros r0 Hr0; [exact Hr0|].
    rewrite after_S. apply IH, next_at_pull; assumption. }
  destruct (Hgen (StateMachine.process m input)) as (Hpos & Hpend & Hitem).
  { unfold at_pull, StateMachine.process. cbn [context pending pulls].
    specialize (Hinit (Context.new (StateMachine.defaultState m))).
    unfold item_and_position in Hinit. injection Hinit as Hi Hp.
    rewrite Hp. split; [reflexivity|]. split; [reflexivity|]. intros H0. lia. }
  fold r in Hpos, Hpend, Hitem. split; [exact Hpend|].
  intros Hn. rewrite Hitem by exact Hn. f_equal. lia.
Qed.

Lemma A_table_keeps_item_and_position : table_keeps item_and_position A_table.
Proof.
  unfold table_keeps, A_table.
  repeat apply map_Forall_insert_2; [| |apply map_Forall_empty];
    cbn [matchers defaultActions endActions];
    repeat first
      [ apply Forall_nil_2
      | apply Forall_cons_2
      | (intros c; reflexivity)
      | split ].
Qed.

Lemma position_is_index_of_current_item_witness :
  let r := after 2 [A_table] tag_machine
             (StateMachine.process tag_machine (chars_of "a[b]c")) in
  pending r = drop (pulls r) (chars_of "a[b]c") ∧
  ((0 < pulls r)%nat →
   Context.currentItem (context r)
     = chars_of "a[b]c" !! Z.to_nat (Context.currentPosition (context r))).
Proof.
  apply (position_is_index_of_current_item [A_table] tag_machine
           (chars_of "a[b]c") 2).
  - exact A_table_keeps_item_and_position.
  - intros c. reflexivity.
Defined.

(** ** The colour-tag tokenizer on an unclosed tag *)

(** In [color], the closing bracket emits what was accepted before it and
    leaves the run in [text] with an empty buffer. *)
Lemma A_color_to_bracket col : ∀ rest n cp ci b cs ks,
  "]" ∉ col →
  ∃ cp' n',
    StateMachine.do_while A_table (col ++ "]" :: rest) n
      (Context.mk (Some "color") ci cp [] false (VString b) cs ks) =
    (Normal (Some (mkToken "color" (VString (b +:+ text_of col)))),
     mkRun (Context.mk (Some "text") (Some "]") cp' [] false (VString "") cs ks)
           rest n').
Proof.
  induction col as [|x col IH]; intros rest n cp ci b cs ks Hno.
  - cbn [app StateMachine.do_while].
    change (js_key (Context.state (StateMachine.pull_input (Some "]") _)))
      with "color".
    rewrite A_table_color. cbn. rewrite append_nil_r. eauto.
  - apply not_elem_of_cons in Hno as [Hx Hxs].
    change ((x :: col) ++ "]" :: rest) with (x :: (col ++ "]" :: rest)).
    cbn [StateMachine.do_while].
    change (js_key (Context.state (StateMachine.pull_input (Some x) _)))
      with "color".
    rewrite A_table_color.
    cbn [matchers find_rule matcher Tokenizer.tokenizer_wrapper
         StateMachine.pull_input Context.currentItem Context.set_currentItem
         Context.set_currentPosition].
    replace (js_strict_eq (Some x) (Some "]")) with false
      by (symmetry; apply js_strict_eq_false; congruence).
    cbn.
    change (Context.set_buffer _ _)
      with (Context.mk (Some "color") (Some x) (cp + 1) [] false
              (VString (b +:+ x)) cs ks).
    change (foldr String.append "" col) with (text_of col).
    destruct (IH rest (S n) (cp + 1) (Some x) (b +:+ x) cs ks Hxs)
      as (cp' & n' & H).
    rewrite H, append_assoc. eauto.
Qed.

Lemma follows_trace_end h m r r1 :
  StateMachine.next h m r = (Normal None, r1) →
  Context.finished (context r1) = true →
  follows_trace h m r ([], None).
Proof.
  intros Hn Hf. repeat split; cbn [fst snd].
  - intros k tok Hk. rewrite lookup_nil in Hk. discriminate.
  - intros _ [|k] _.
    + rewrite nth_pull_0, Hn. reflexivity.
    + rewrite nth_pull_S, Hn. apply nth_pull_finished. exact Hf.
  - discriminate.
Qed.

Lemma A_tags_trace segs : ∀ pre rest n cp ci cs ks,
  Forall (λ seg, ("[" ∉ fst seg) ∧ ("]" ∉ snd seg)) segs →
  "[" ∉ pre → "]" ∉ rest →
  follows_trace [A_table] tag_machine
    (mkRun (Context.mk (Some "text") ci cp [] false (VString "") cs ks)
           (closed_tags segs ++ pre ++ "[" :: rest) n)
    (tag_tokens segs ++ [mkToken "text" (VString (text_of pre))], None).
Proof.
  induction segs as [|[t col] segs IH]; intros pre rest n cp ci cs ks Hsegs Hpre Hrest.
  - cbn [closed_tags tag_tokens app].
    destruct (A_text_to_bracket pre rest n cp ci "" cs ks Hpre) as (cp' & n' & H1).
    eapply follows_trace_cons.
    + change (StateMachine.next [A_table] tag_machine
                (mkRun (Context.mk (Some "text") ci cp [] false (VString "") cs ks)
                       (pre ++ "[" :: rest) n))
        with (StateMachine.do_while A_table (pre ++ "[" :: rest) n
                (Context.mk (Some "text") ci cp [] false (VString "") cs ks)).
      exact H1.
    + destruct (A_color_loop rest n' cp' (Some "[") (VString "") cs ks Hrest)
        as (H2 & H3 & _).
      cbv zeta in H2, H3.
      eapply (follows_trace_end _ _ _
                (snd (StateMachine.do_while A_table rest n'
                        (Context.mk (Some "color") (Some "[") cp' [] false
                           (VString "") cs ks)))); [|exact H3].
      change (StateMachine.next [A_table] tag_machine
                (mkRun (Context.mk (Some "color") (Some "[") cp' [] false
                          (VString "") cs ks) rest n'))
        with (StateMachine.do_while A_table rest n'
                (Context.mk (Some "color") (Some "[") cp' [] false
                   (VString "") cs ks)).
      rewrite <- H2. apply surjective_pairing.
  - apply Forall_cons in Hsegs as [[Ht Hcol] Hsegs]. cbn [fst snd] in Ht, Hcol.
    cbn [closed_tags tag_tokens fst snd].
    rewrite <- !app_assoc. cbn [app]. rewrite <- !app_assoc. cbn [app].
    set (tail := closed_tags segs ++ pre ++ "[" :: rest).
    destruct (A_text_to_bracket t (col ++ "]" :: tail) n cp ci "" cs ks Ht)
      as (cp1 & n1 & H1).
    eapply follows_trace_cons.
    + change (StateMachine.next [A_table] tag_machine
                (mkRun (Context.mk (Some "text") ci cp [] false (VString "") cs ks)
                       (t ++ "[" :: col ++ "]" :: tail) n))
        with (StateMachine.do_while A_table (t ++ "[" :: col ++ "]" :: tail) n
                (Context.mk (Some "text") ci cp [] false (VString "") cs ks)).
      exact H1.
    + destruct (A_color_to_bracket col tail n1 cp1 (Some "[") "" cs ks Hcol)
        as (cp2 & n2 & H2).
      eapply follows_trace_cons.
      * change (StateMachine.next [A_table] tag_machine
                  (mkRun (Context.mk (Some "color") (Some "[") cp1 [] false
                            (VString "") cs ks) (col ++ "]" :: tail) n1))
          with (StateMachine.do_while A_table (col ++ "]" :: tail) n1
                  (Context.mk (Some "color") (Some "[") cp1 [] false
                     (VString "") cs ks)).
        exact H2.
      * apply IH; assumption.
Qed.

(** X19.  The colour-tag tokenizer of the Readme on an input that ends
    inside a tag: any number of closed tags, each with the text before it,
    then text, an opening bracket, and no closing bracket after it.  The
    calls of [next] return a text and a color token for each closed tag,
    then the text before the unclosed bracket, and from then on the end
    signal: the run ends without an error, and what followed the bracket
    is in no token. *)
Theorem unclosed_tag_is_dropped (segs : list (list string * list string))
    (pre rest : list string) :
  Forall (λ seg, ("[" ∉ fst seg) ∧ ("]" ∉ snd seg)) segs →
  "[" ∉ pre → "]" ∉ rest →
  follows_trace [A_table] tag_machine
    (StateMachine.process tag_machine
       (closed_tags segs ++ pre ++ "[" :: rest))
    (tag_tokens segs ++ [mkToken "text" (VString (text_of pre))], None).
Proof.
  intros Hsegs Hpre Hrest.
  apply (A_tags_trace segs pre rest 0%nat (-1) None None None Hsegs Hpre Hrest).
Qed.

Lemma unclosed_tag_is_dropped_witness :
  follows_trace [A_table] tag_machine
    (StateMachine.process tag_machine
       (closed_tags [(chars_of "a", chars_of "b")]
          ++ chars_of "c" ++ "[" :: chars_of "d"))
    (tag_tokens [(chars_of "a", chars_of "b")]
       ++ [mkToken "text" (VString (text_of (chars_of "c")))], None).
Proof.
  apply (unclosed_tag_is_dropped [(chars_of "a", chars_of "b")]
           (chars_of "c") (chars_of "d")).
  - repeat constructor; cbn [fst snd chars_of]; intros H;
      repeat (apply elem_of_cons in H as [H|H]; [discriminate|]);
      apply elem_of_nil in H; exact H.
  - cbn [chars_of]. intros H.
    repeat (apply elem_of_cons in H as [H|H]; [discriminate|]).
    apply elem_of_nil in H. exact H.
  - cbn [chars_of]. intros H.
    repeat (apply elem_of_cons in H as [H|H]; [discriminate|]).
    apply elem_of_nil in H. exact H.
Defined.

(** The input of that instance is ["a[b]c[d"]: three tokens, and ["d"] is
    lost. *)
Example unclosed_second_tag :
  closed_tags [(chars_of "a", chars_of "b")] ++ chars_of "c" ++ "[" :: chars_of "d"
    = chars_of "a[b]c[d" ∧
  fst (pull 5 [A_table] tag_machine
         (StateMachine.process tag_machine (chars_of "a[b]c[d")))
    = [Normal (Some (mkToken "text" (VString "a")));
       Normal (Some (mkToken "color" (VString "b")));
       Normal (Some (mkToken "text" (VString "c")));
       Normal None; Normal None].
Proof. split; vm_compute; reflexivity. Qed.
